(** * XCSoar: software pixel operations and the XCOM760 radio driver

  A shallow embedding of [src/Screen/Memory/PixelOperations.hpp] and of
  [src/Device/Driver/XCOM760.cpp].

  Conventions of the embedding:
  - a C++ fixed-width integer is a [Z] with its conversion written out
    ([to_int] for the 32-bit [int], [to_uint8] for [uint8_t],
    [to_integer w] for a [w]-bit unsigned packed pixel);
  - a [void] function that touches the frame buffer is a function from the
    memory to the new memory together with the list of accesses it made, in
    program order;
  - a template parameter ([PixelTraits], [Operation], [Check],
    [WritePixelOperation]) is a function argument. *)

From Stdlib Require Import ZArith Lia String Ascii DecimalString.
From Stdlib Require Decimal DecimalFacts DecimalPos DecimalN DecimalZ.
From stdpp Require Import base list.

Local Open Scope Z_scope.

(** ** Machine integers *)

Module CInt.

(** Conversion of a mathematical integer to the 32-bit two's complement
    [int]. *)
Definition to_int (x : Z) : Z := (x + 2 ^ 31) mod 2 ^ 32 - 2 ^ 31.

(** Conversion to [uint8_t]. *)
Definition to_uint8 (x : Z) : Z := x mod 2 ^ 8.

(** Conversion to a [w]-bit unsigned integer. *)
Definition to_integer (w : Z) (x : Z) : Z := x mod 2 ^ w.

Definition int_add (x y : Z) : Z := to_int (x + y).
Definition int_sub (x y : Z) : Z := to_int (x - y).
Definition int_mul (x y : Z) : Z := to_int (x * y).

(** [x >> k] on [int]: the arithmetic shift of the targets XCSoar is
    built for. *)
Definition int_shr (x k : Z) : Z := Z.shiftr x k.

Definition in_int (x : Z) : Prop := - 2 ^ 31 <= x < 2 ^ 31.
Definition in_uint8 (x : Z) : Prop := 0 <= x <= 255.

End CInt.

Import CInt.

(** ** Scalar operations of the catalogue *)

(** [PixelBitNot<integer_type>::operator()], for an unsigned
  [integer_type] of [w] bits: [~x], converted back to [integer_type]. *)
Definition PixelBitNot (w : Z) (x : Z) : Z := to_integer w (Z.lnot x).

(** [std::bit_or<integer_type>] and [std::bit_and<integer_type>]. *)
Definition bit_or (w : Z) (a b : Z) : Z := to_integer w (Z.lor a b).
Definition bit_and (w : Z) (a b : Z) : Z := to_integer w (Z.land a b).

(** [PixelBitNotOr<integer_type>::operator()]: [a | ~b]. *)
Definition PixelBitNotOr (w : Z) (a b : Z) : Z :=
  to_integer w (Z.lor a (Z.lnot b)).

(** The expression [a + ((int(b - a) * alpha) >> 8)] shared by
  [PixelAlphaOperation], [PixelColoredAlpha] and [PixelOpaqueAlpha].  Its
  operands [a] and [b] are [channel_type] values promoted to [int]; the
  value is an [int]. *)
Definition blend_int (alpha a b : Z) : Z :=
  int_add a (int_shr (int_mul (to_int (int_sub b a)) alpha) 8).

(** [PixelAlphaOperation<T>], for [T = uint8_t]: the class stores
  [const int alpha], initialised from a [uint8_t]. *)
Record PixelAlphaOperation := mkPixelAlphaOperation { alpha : Z }.

(** The constructor [PixelAlphaOperation(uint8_t _alpha)]. *)
Definition PixelAlphaOperation_new (_alpha : Z) : PixelAlphaOperation :=
  {| alpha := to_int (to_uint8 _alpha) |}.

(** [T PixelAlphaOperation<T>::operator()(T a, T b)]: the [int] value is
  converted to [T] on return. *)
Definition PixelAlphaOperation_call (op : PixelAlphaOperation) (a b : Z) : Z :=
  to_uint8 (blend_int (alpha op) a b).

(** [AlphaBlend(alpha)(a, b)] of the specification. *)
Definition AlphaBlend (_alpha a b : Z) : Z :=
  PixelAlphaOperation_call (PixelAlphaOperation_new _alpha) a b.


(** ** The format descriptor

    [PixelTraits] is a template parameter of every class of
    [PixelOperations.hpp]; its declaration is not part of that file.  The
    record lists the members the file uses.  [Mem] is the memory the
    pointers of the descriptor point into and [color_type] is the member
    type of that name.  A [channel_type] value is a [Z]
    (an 8-bit sample), an [integer_type] value is a [Z] of [integer_bits]
    bits, and the function objects handed to the transforms work on those. *)

Record PixelTraits (Mem color_type : Type) := mkPixelTraits {
  pointer_type : Type;
  (** [operator==] and [operator!=] of [color_type] *)
  color_eq_dec : EqDecision color_type;
  (** width of [integer_type] *)
  integer_bits : Z;
  (** [Next(p, i)] *)
  Next : pointer_type -> nat -> pointer_type;
  (** [ReadPixel(p)] *)
  ReadPixel : pointer_type -> Mem -> color_type;
  (** [WritePixel(p, c)] *)
  WritePixel : pointer_type -> color_type -> Mem -> Mem;
  (** [TransformChannels(c, f)] and [TransformChannels(a, b, f)] *)
  TransformChannels : color_type -> (Z -> Z) -> color_type;
  TransformChannels2 : color_type -> color_type -> (Z -> Z -> Z) -> color_type;
  (** [TransformInteger(c, f)] and [TransformInteger(a, b, f)] *)
  TransformInteger : color_type -> (Z -> Z) -> color_type;
  TransformInteger2 : color_type -> color_type -> (Z -> Z -> Z) -> color_type;
  (** [IsBlack(c)] *)
  IsBlack : color_type -> bool;
}.

Arguments pointer_type {Mem color_type} _.
Arguments color_eq_dec {Mem color_type} _.
Arguments integer_bits {Mem color_type} _.
Arguments Next {Mem color_type} _ _ _.
Arguments ReadPixel {Mem color_type} _ _ _.
Arguments WritePixel {Mem color_type} _ _ _ _.
Arguments TransformChannels {Mem color_type} _ _ _.
Arguments TransformChannels2 {Mem color_type} _ _ _ _.
Arguments TransformInteger {Mem color_type} _ _ _.
Arguments TransformInteger2 {Mem color_type} _ _ _ _.
Arguments IsBlack {Mem color_type} _ _.

(** [a != b] on two colours. *)
Definition color_ne {Mem C} (PT : PixelTraits Mem C) (a b : C) : bool :=
  if color_eq_dec PT a b then false else true.

(** Modelled from the spec: the contract of the per-channel transform of the
    format descriptor, which is declared outside [PixelOperations.hpp]:
    the scalar function is applied independently to every channel of one
    or two colours and the result is reassembled, channel count and order
    preserved; a channel is an 8-bit sample, so what the function returns is
    converted to [channel_type].  [channels c] lists the channel samples of
    the colour [c] in the descriptor's order. *)
Record ChannelContract {Mem C : Type} (PT : PixelTraits Mem C)
    (channels : C -> list Z) : Prop := {
  TransformChannels_spec :
    forall (c : C) (f : Z -> Z),
      channels (TransformChannels PT c f)
      = map (fun x => to_uint8 (f x)) (channels c);
  TransformChannels2_spec :
    forall (a b : C) (f : Z -> Z -> Z),
      channels (TransformChannels2 PT a b f)
      = zip_with (fun x y => to_uint8 (f x y)) (channels a) (channels b);
}.

(** Modelled from the spec: the contract of pixel write at a location, which
    is declared outside [PixelOperations.hpp]: a write replaces what an
    earlier write stored at the same location, and two writes may be
    exchanged unless they store different colours at one location. *)
Record StoreContract {Mem C : Type} (PT : PixelTraits Mem C) : Prop := {
  WritePixel_twice :
    forall (p : pointer_type PT) (c d : C) (m : Mem),
      WritePixel PT p c (WritePixel PT p d m) = WritePixel PT p c m;
  WritePixel_commute :
    forall (p q : pointer_type PT) (c d : C) (m : Mem),
      (p = q -> c = d) ->
      WritePixel PT p c (WritePixel PT q d m)
      = WritePixel PT q d (WritePixel PT p c m);
}.

(** ** Effects

    A computation on the frame buffer returns its result, the new memory and
    the events it produced, in program order.  [E] is the type of the
    events. *)

Definition Eff (Mem E A : Type) : Type := Mem -> A * Mem * list E.

Definition ret {Mem E A} (a : A) : Eff Mem E A := fun m => (a, m, []).

Definition bind {Mem E A B} (x : Eff Mem E A) (k : A -> Eff Mem E B)
  : Eff Mem E B :=
  fun m =>
    let '(a, m1, t1) := x m in
    let '(b, m2, t2) := k a m1 in
    (b, m2, t1 ++ t2).

(** Run a computation whose events are of type [E] where events of type
    [E'] are expected. *)
Definition lift {Mem E E' A} (inj : E -> E') (x : Eff Mem E A)
  : Eff Mem E' A :=
  fun m => let '(a, m1, t1) := x m in (a, m1, map inj t1).

Declare Scope eff_scope.
Delimit Scope eff_scope with eff.
Notation "x <- c1 ;; c2" := (bind c1 (fun x => c2))
  (at level 100, c1 at next level, right associativity) : eff_scope.
Notation "c1 ;; c2" := (bind c1 (fun _ => c2))
  (at level 100, right associativity) : eff_scope.

Definition result {Mem E A} (r : A * Mem * list E) : A := fst (fst r).
Definition memory {Mem E A} (r : A * Mem * list E) : Mem := snd (fst r).
Definition trace {Mem E A} (r : A * Mem * list E) : list E := snd r.

(** [for (unsigned i = start; i < start + count; ++i) body(i)]. *)
Fixpoint for_range {Mem E} (start count : nat) (body : nat -> Eff Mem E unit)
  : Eff Mem E unit :=
  match count with
  | O => ret tt
  | S count' => (body start ;; for_range (S start) count' body)%eff
  end.

(** [for (unsigned i = 0; i < n; ++i) body(i)]. *)
Definition for_upto {Mem E} (n : nat) (body : nat -> Eff Mem E unit)
  : Eff Mem E unit :=
  for_range 0 n body.

(** An access to a pixel of the destination, with the colour read or
    written. *)
Inductive access {Mem C} (PT : PixelTraits Mem C) : Type :=
| AccRead (p : pointer_type PT) (c : C)
| AccWrite (p : pointer_type PT) (c : C).

Arguments AccRead {Mem C PT} p c.
Arguments AccWrite {Mem C PT} p c.

(** What [CopyPixels] does: reads of the source through [SPT], accesses to
    the destination through [PixelTraits]. *)
Inductive copy_event {Mem C S} (PT : PixelTraits Mem C)
    (SPT : PixelTraits Mem S) : Type :=
| SrcRead (p : pointer_type SPT) (c : S)
| Dest (a : access PT).

Arguments SrcRead {Mem C S PT SPT} p c.
Arguments Dest {Mem C S PT SPT} a.

Section Engine.

Context {Mem C S : Type}.
Variable PT : PixelTraits Mem C.
Variable SPT : PixelTraits Mem S.

Local Open Scope eff_scope.

(** A call of [PixelTraits::ReadPixel(p)]. *)
Definition read_pixel (p : pointer_type PT)
  : Eff Mem (access PT) (C) :=
  fun m => (ReadPixel PT p m, m, [AccRead p (ReadPixel PT p m)]).

(** A call of [PixelTraits::WritePixel(p, c)]. *)
Definition write_pixel (p : pointer_type PT) (c : C)
  : Eff Mem (access PT) unit :=
  fun m => (tt, WritePixel PT p c m, [AccWrite p c]).

(** A call of [SPT::ReadPixel(p)] on the source of a copy. *)
Definition read_source (p : pointer_type SPT)
  : Eff Mem (copy_event PT SPT) (S) :=
  fun m => (ReadPixel SPT p m, m, [SrcRead p (ReadPixel SPT p m)]).

(** The interface of the template parameter [WritePixelOperation]:
    [void WritePixel(pointer_type p, typename SPT::color_type c) const]. *)
Definition WritePixelOperation : Type :=
  pointer_type PT -> S -> Eff Mem (access PT) unit.

(** Modelled from the spec: [PixelTraits::ForHorizontal(p, n, f)], declared
    outside [PixelOperations.hpp]: the bounded iteration primitive that
    invokes [f] exactly [n] times, once per pixel address, in increasing
    address order. *)
Definition ForHorizontal {E} (p : pointer_type PT) (n : nat)
    (f : pointer_type PT -> Eff Mem E unit) : Eff Mem E unit :=
  for_upto n (fun i => f (Next PT p i)).

(** *** [PerPixelOperations] *)

(** [PerPixelOperations::WritePixel]. *)
Definition PerPixelOperations_WritePixel (W : WritePixelOperation)
    (p : pointer_type PT) (c : S) : Eff Mem (access PT) unit :=
  W p c.

(** [PerPixelOperations::FillPixels]. *)
Definition FillPixels (W : WritePixelOperation)
    (p : pointer_type PT) (n : nat) (c : S)
  : Eff Mem (access PT) unit :=
  ForHorizontal p n (fun p => PerPixelOperations_WritePixel W p c).

(** [PerPixelOperations::CopyPixels]. *)
Definition CopyPixels (W : WritePixelOperation)
    (p : pointer_type PT) (src : pointer_type SPT) (n : nat)
  : Eff Mem (copy_event PT SPT) unit :=
  for_upto n (fun i =>
    c <- read_source (Next SPT src i) ;;
    lift Dest (PerPixelOperations_WritePixel W (Next PT p i) c)).

(** *** Write strategies *)

(** [UnaryWritePixel::WritePixel]. *)
Definition UnaryWritePixel (op : S -> C)
  : WritePixelOperation :=
  fun p c => write_pixel p (op c).

(** [BinaryWritePixel::WritePixel]. *)
Definition BinaryWritePixel
    (op : C -> S -> C)
  : WritePixelOperation :=
  fun p c => a <- read_pixel p ;; write_pixel p (op a c).

End Engine.


Arguments WritePixelOperation {Mem C} S PT.

Section Catalogue.

Context {Mem C : Type}.
Variable PT : PixelTraits Mem C.

Local Open Scope eff_scope.

(** [ConditionalWritePixel<PixelTraits, Check>::WritePixel]; the colour
    written is a [PixelTraits::color_type]. *)
Definition ConditionalWritePixel (check : C -> bool)
  : WritePixelOperation C PT :=
  fun p c => if check c then write_pixel PT p c else ret tt.

(** [PixelPerChannelAdapter::operator()], with one and with two colours. *)
Definition PixelPerChannelAdapter (op : Z -> Z) (x : C)
  : C :=
  TransformChannels PT x (fun x => op x).

Definition PixelPerChannelAdapter2 (op : Z -> Z -> Z) (a b : C)
  : C :=
  TransformChannels2 PT a b (fun a b => op a b).

(** [PixelIntegerAdapter::operator()], with one and with two colours. *)
Definition PixelIntegerAdapter (op : Z -> Z) (x : C)
  : C :=
  TransformInteger PT x (fun x => op x).

Definition PixelIntegerAdapter2 (op : Z -> Z -> Z) (a b : C)
  : C :=
  TransformInteger2 PT a b (fun a b => op a b).

(** [BitNotPixelOperations], [BitOrPixelOperations],
    [BitNotOrPixelOperations], [BitAndPixelOperations] and
    [AlphaPixelOperations]: the write strategy of each alias. *)
Definition BitNotPixelOperations : WritePixelOperation C PT :=
  UnaryWritePixel PT (PixelIntegerAdapter (PixelBitNot (integer_bits PT))).

Definition BitOrPixelOperations : WritePixelOperation C PT :=
  BinaryWritePixel PT (PixelIntegerAdapter2 (bit_or (integer_bits PT))).

Definition BitNotOrPixelOperations : WritePixelOperation C PT :=
  BinaryWritePixel PT
    (PixelIntegerAdapter2 (PixelBitNotOr (integer_bits PT))).

Definition BitAndPixelOperations : WritePixelOperation C PT :=
  BinaryWritePixel PT (PixelIntegerAdapter2 (bit_and (integer_bits PT))).

Definition AlphaPixelOperations (op : PixelAlphaOperation)
  : WritePixelOperation C PT :=
  BinaryWritePixel PT
    (PixelPerChannelAdapter2 (PixelAlphaOperation_call op)).

(** [ColorKey<PixelTraits>]: the key and [operator()]. *)
Record ColorKey := mkColorKey { key : C }.

Definition ColorKey_call (k : ColorKey) (c : C) : bool :=
  color_ne PT c (key k).

(** [TransparentPixelOperations]. *)
Definition TransparentPixelOperations (k : ColorKey)
  : WritePixelOperation C PT :=
  ConditionalWritePixel (ColorKey_call k).

(** [TransparentInvertPixelOperations::WritePixel]; the class derives from
    [PixelIntegerAdapter<PixelTraits, PixelBitNot<integer_type>>], whose
    [operator()] the body applies to [c]. *)
Definition TransparentInvertPixelOperations (key : C)
  : WritePixelOperation C PT :=
  fun p c =>
    if color_ne PT c key
    then write_pixel PT p
           (PixelIntegerAdapter (PixelBitNot (integer_bits PT)) c)
    else ret tt.

End Catalogue.

Arguments ColorKey C : clear implicits.

(** Modelled from the spec: [Luminosity8], the colour type of a coverage
    sample, declared outside [PixelOperations.hpp]: an 8-bit scalar
    (0 to 255), read with [GetLuminosity()]. *)
Record Luminosity8 := mkLuminosity8 { GetLuminosity : Z }.

#[export] Instance Luminosity8_eq_dec : EqDecision Luminosity8.
Proof. solve_decision. Defined.

Section CatalogueWithSource.

Context {Mem C S : Type}.
Variable PT : PixelTraits Mem C.
Variable SPT : PixelTraits Mem S.

(** [PixelOpaqueText<PixelTraits, SPT>]: the two colours and
    [operator()]. *)
Record PixelOpaqueText := mkPixelOpaqueText {
  background_color : C;
  text_color : C;
}.

Definition PixelOpaqueText_call (op : PixelOpaqueText) (x : S) : C :=
  if IsBlack SPT x then background_color op else text_color op.

(** [OpaqueTextPixelOperations]. *)
Definition OpaqueTextPixelOperations (op : PixelOpaqueText)
  : WritePixelOperation S PT :=
  UnaryWritePixel PT (PixelOpaqueText_call op).

(** [PixelColoredAlpha<PixelTraits>]: the colour and [operator()]. *)
Record PixelColoredAlpha := mkPixelColoredAlpha { color : C }.

Definition PixelColoredAlpha_call (op : PixelColoredAlpha)
    (a : C) (alpha : Luminosity8) : C :=
  TransformChannels2 PT a (color op)
    (fun a color => blend_int (to_int (GetLuminosity alpha)) a color).

(** [PixelOpaqueAlpha<PixelTraits>]: the two colours and [operator()]. *)
Record PixelOpaqueAlpha := mkPixelOpaqueAlpha {
  opaque_a : C;
  opaque_b : C;
}.

Definition PixelOpaqueAlpha_call (op : PixelOpaqueAlpha)
    (alpha : Luminosity8) : C :=
  TransformChannels2 PT (opaque_a op) (opaque_b op)
    (fun a b => blend_int (to_int (GetLuminosity alpha)) a b).

End CatalogueWithSource.

Arguments PixelOpaqueText C : clear implicits.
Arguments PixelColoredAlpha C : clear implicits.
Arguments PixelOpaqueAlpha C : clear implicits.

(** [ColoredAlphaPixelOperations] and [OpaqueAlphaPixelOperations]: the
    colour type of the source is [Luminosity8]. *)
Definition ColoredAlphaPixelOperations {Mem C} (PT : PixelTraits Mem C)
    (op : PixelColoredAlpha C) : WritePixelOperation Luminosity8 PT :=
  BinaryWritePixel PT (PixelColoredAlpha_call PT op).

Definition OpaqueAlphaPixelOperations {Mem C} (PT : PixelTraits Mem C)
    (op : PixelOpaqueAlpha C) : WritePixelOperation Luminosity8 PT :=
  UnaryWritePixel PT (PixelOpaqueAlpha_call PT op).

(** ** Observations on memories and traces *)

Section Observations.

Context {Mem C S : Type}.
Variable PT : PixelTraits Mem C.
Variable SPT : PixelTraits Mem S.

(** The locations of the source a copy read, in the order of the reads. *)
Definition source_reads (t : list (copy_event PT SPT))
  : list (pointer_type SPT) :=
  omap (fun e => match e with SrcRead p _ => Some p | Dest _ => None end) t.

(** The locations of the destination a copy wrote and those it read, in
    order. *)
Definition dest_writes (t : list (copy_event PT SPT))
  : list (pointer_type PT) :=
  omap (fun e => match e with
                 | Dest (AccWrite p _) => Some p
                 | _ => None
                 end) t.

Definition dest_reads (t : list (copy_event PT SPT))
  : list (pointer_type PT) :=
  omap (fun e => match e with
                 | Dest (AccRead p _) => Some p
                 | _ => None
                 end) t.

(** The memory after the colour [v] has been written at each pointer of
    [ps], in the order of the list. *)
Definition write_all (v : C) (ps : list (pointer_type PT)) (m : Mem) : Mem :=
  foldl (fun m q => WritePixel PT q v m) m ps.

(** The pointers [Next(p, 0)], ..., [Next(p, n - 1)] of a span. *)
Definition span_pointers (p : pointer_type PT) (n : nat)
  : list (pointer_type PT) :=
  map (Next PT p) (seq 0 n).

(** [p] is a location of [m] at which a pixel that has been written is
    read back. *)
Definition valid_location (p : pointer_type PT) (m : Mem) : Prop :=
  forall c : C, ReadPixel PT p (WritePixel PT p c m) = c.

End Observations.

(** ** An 8-bit greyscale format descriptor

    Modelled from the spec: the descriptor of a frame buffer of 8-bit
    greyscale pixels (the one of Scenario A), declared outside
    [PixelOperations.hpp].  The memory is an array of pixels, a pointer is an
    index into it, [Next(p, i)] is [p + i], a pixel is read and written in
    place, the one channel and the packed integer are both the luminosity,
    and a pixel is black when its luminosity is 0.  An access outside the
    array is outside every range a caller may declare: the model reads 0
    there and writes nothing. *)

Module Greyscale.

Abbreviation Mem := (list Luminosity8).

Definition black : Luminosity8 := mkLuminosity8 0.

Definition GreyscalePixelTraits : PixelTraits Mem Luminosity8 := {|
  pointer_type := nat;
  color_eq_dec := Luminosity8_eq_dec;
  integer_bits := 8;
  Next := fun p i => (p + i)%nat;
  ReadPixel := fun p m => default black (m !! p);
  WritePixel := fun p c m => <[p := c]> m;
  TransformChannels := fun c f =>
    mkLuminosity8 (to_uint8 (f (GetLuminosity c)));
  TransformChannels2 := fun a b f =>
    mkLuminosity8 (to_uint8 (f (GetLuminosity a) (GetLuminosity b)));
  TransformInteger := fun c f =>
    mkLuminosity8 (to_integer 8 (f (GetLuminosity c)));
  TransformInteger2 := fun a b f =>
    mkLuminosity8 (to_integer 8 (f (GetLuminosity a) (GetLuminosity b)));
  IsBlack := fun c => GetLuminosity c =? 0;
|}.

(** The one channel of a greyscale pixel. *)
Definition channels (c : Luminosity8) : list Z := [GetLuminosity c].

(** A row of pixels given by its luminosities. *)
Definition row (l : list Z) : list Luminosity8 := map mkLuminosity8 l.

(** The luminosities of the [n] pixels from [p] on. *)
Definition span (p n : nat) (m : Mem) : list Z :=
  map (fun i => GetLuminosity (ReadPixel GreyscalePixelTraits (p + i)%nat m))
      (seq 0 n).

(** The pixel a keyed copy leaves at a destination position that holds [d]
    when the source pixel is [s]. *)
Definition keyed (k d s : Luminosity8) : Luminosity8 :=
  if decide (s = k) then d else s.

Abbreviation G := GreyscalePixelTraits.

End Greyscale.

(** ** The XCOM760 radio driver *)

Module XCOM760.

Local Open Scope string_scope.

(** [RadioFrequency], declared outside the driver: [GetKiloHertz()] returns
    an [unsigned]. *)
Record RadioFrequency := mkRadioFrequency { GetKiloHertz : N }.

(** The serial port, declared outside the driver: its state is the bytes
    written to it so far, and [Write(s)] sends the characters of [s]. *)
Definition Port : Type := string.

Definition Port_Write (s : string) (port : Port) : Port :=
  String.append port s.

(** [printf] conversions: [%u], [%d] and [%03u]. *)
Definition format_u (n : N) : string :=
  NilZero.string_of_uint (N.to_uint n).

Definition format_d (z : Z) : string :=
  NilZero.string_of_int (Z.to_int z).

Fixpoint zeros (k : nat) : string :=
  match k with
  | O => EmptyString
  | S k' => String "0" (zeros k')
  end.

Definition format_03u (n : N) : string :=
  let s := format_u n in
  String.append (zeros (3 - String.length s)) s.

Definition CRLF : string :=
  String (ascii_of_nat 13) (String (ascii_of_nat 10) EmptyString).

(** [XCOM760Device::PutVolume]. *)
Definition PutVolume (Volume : Z) (port : Port) : bool * Port :=
  let szTmp := String.append "$RVOL=" (String.append (format_d Volume) CRLF) in
  let port := Port_Write szTmp port in
  (true, port).

(** [XCOM760Device::PutActiveFrequency]. *)
Definition PutActiveFrequency (frequency : RadioFrequency) (port : Port)
  : bool * Port :=
  let szTmp :=
    String.append "$TXAF="
      (String.append (format_u (GetKiloHertz frequency / 1000))
        (String.append "."
          (String.append (format_03u (GetKiloHertz frequency mod 1000))
            CRLF))) in
  let port := Port_Write szTmp port in
  (true, port).

(** [XCOM760Device::PutStandbyFrequency]. *)
Definition PutStandbyFrequency (frequency : RadioFrequency) (port : Port)
  : bool * Port :=
  let szTmp :=
    String.append "$TXSF="
      (String.append (format_u (GetKiloHertz frequency / 1000))
        (String.append "."
          (String.append (format_03u (GetKiloHertz frequency mod 1000))
            CRLF))) in
  (true, port).

End XCOM760.

(** ** Whole spans *)

(** Modelled from the spec: the rest of the contract of pixel read and write
    at a location, which is declared outside [PixelOperations.hpp]: a write
    leaves the pixels at other locations as they were, and a location that
    is valid stays valid when a pixel is written. *)
Record MemoryContract {Mem C : Type} (PT : PixelTraits Mem C) : Prop := {
  ReadPixel_other :
    forall (p q : pointer_type PT) (c : C) (m : Mem),
      p <> q -> ReadPixel PT q (WritePixel PT p c m) = ReadPixel PT q m;
  valid_location_written :
    forall (p q : pointer_type PT) (c : C) (m : Mem),
      valid_location PT q m -> valid_location PT q (WritePixel PT p c m);
}.

(** Modelled from the spec: the contract of the per-integer transform of the
    format descriptor, which is declared outside [PixelOperations.hpp]: the
    scalar function is applied to the packed whole-pixel representation of
    one or two colours and what it returns, converted to [integer_type], is
    the packed representation of the result.  [packed c] is the packed
    integer of the colour [c]. *)
Record IntegerContract {Mem C : Type} (PT : PixelTraits Mem C)
    (packed : C -> Z) : Prop := {
  TransformInteger_spec :
    forall (c : C) (f : Z -> Z),
      packed (TransformInteger PT c f)
      = to_integer (integer_bits PT) (f (packed c));
  TransformInteger2_spec :
    forall (a b : C) (f : Z -> Z -> Z),
      packed (TransformInteger2 PT a b f)
      = to_integer (integer_bits PT) (f (packed a) (packed b));
}.

Section SpanObservations.

Context {Mem C S : Type}.
Variable PT : PixelTraits Mem C.

(** A write strategy acts on the one pixel it is given: from the pixel [d]
    at the location and the source colour [c], [g d c] is the colour it
    writes there, or [None] when it writes nothing. *)
Definition pixelwise (W : WritePixelOperation S PT)
    (g : C -> S -> option C) : Prop :=
  forall (p : pointer_type PT) (c : S) (m : Mem),
    memory (W p c m)
    = match g (ReadPixel PT p m) c with
      | Some v => WritePixel PT p v m
      | None => m
      end.

(** The pixel a location that held [d] holds after such a strategy has
    been given the source colour [c]. *)
Definition committed (g : C -> S -> option C) (d : C) (c : S) : C :=
  match g d c with
  | Some v => v
  | None => d
  end.

(** The state of a loop over the span of [n] pixels from [p] once the
    positions below [k] have been processed: those hold what the strategy
    commits from the pixel and the source colour of the start, the others
    are as they were, and so are the source colours still to be used and
    every pixel outside the span.  [srcval i m] is the source colour of
    position [i] in memory [m]. *)
Definition span_progress (g : C -> S -> option C) (p : pointer_type PT)
    (n : nat) (srcval : nat -> Mem -> S) (m0 : Mem) (k : nat) (m : Mem)
  : Prop :=
  (forall i, (i < k)%nat -> (i < n)%nat ->
     ReadPixel PT (Next PT p i) m
     = committed g (ReadPixel PT (Next PT p i) m0) (srcval i m0))
  /\ (forall i, (k <= i < n)%nat ->
        ReadPixel PT (Next PT p i) m = ReadPixel PT (Next PT p i) m0)
  /\ (forall i, (k <= i < n)%nat -> srcval i m = srcval i m0)
  /\ (forall i, (i < n)%nat -> valid_location PT (Next PT p i) m)
  /\ (forall q, (forall i, (i < n)%nat -> q <> Next PT p i) ->
        ReadPixel PT q m = ReadPixel PT q m0).

(** The locations of a span are pairwise different. *)
Definition span_distinct (p : pointer_type PT) (n : nat) : Prop :=
  forall i j, (i < n)%nat -> (j < n)%nat -> i <> j ->
    Next PT p i <> Next PT p j.

End SpanObservations.

Section AccessObservations.

Context {Mem C : Type}.
Variable PT : PixelTraits Mem C.

(** The location of an access. *)
Definition access_location (a : access PT) : pointer_type PT :=
  match a with
  | AccRead p _ => p
  | AccWrite p _ => p
  end.

(** A write strategy accesses no location but the one it is given. *)
Definition local_strategy {S} (W : WritePixelOperation S PT) : Prop :=
  forall (p : pointer_type PT) (c : S) (m : Mem),
    Forall (fun a => access_location a = p) (trace (W p c m)).

(** [q] is one of the [n] locations of the span that starts at [p]. *)
Definition in_span (p : pointer_type PT) (n : nat) (q : pointer_type PT)
  : Prop :=
  exists i, (i < n)%nat /\ q = Next PT p i.

End AccessObservations.

Arguments access_location {Mem C PT} a.

(** An event of a copy is within the spans of the copy: a read of the
    source within the [n] locations from [src], an access to the
    destination within the [n] locations from [p]. *)
Definition copy_event_in_spans {Mem C S} (PT : PixelTraits Mem C)
    (SPT : PixelTraits Mem S) (p : pointer_type PT) (src : pointer_type SPT)
    (n : nat) (e : copy_event PT SPT) : Prop :=
  match e with
  | SrcRead q _ => in_span SPT src n q
  | Dest a => in_span PT p n (access_location a)
  end.


(** * Properties *)

(** ** Machine integers *)

Module CIntFacts.

Lemma to_int_id x : in_int x -> to_int x = x.
Proof.
  unfold in_int, to_int. intros H.
  rewrite Z.mod_small; lia.
Qed.

Lemma to_uint8_id x : in_uint8 x -> to_uint8 x = x.
Proof.
  unfold in_uint8, to_uint8. intros H.
  rewrite Z.mod_small; lia.
Qed.

Lemma shiftr8_div x : Z.shiftr x 8 = x / 256.
Proof. rewrite Z.shiftr_div_pow2 by lia. reflexivity. Qed.

End CIntFacts.

Import CIntFacts.

(** ** Arithmetic of the blend *)

Section BlendArith.

Variables alpha a b : Z.
Hypothesis Halpha : in_uint8 alpha.
Hypothesis Ha : in_uint8 a.
Hypothesis Hb : in_uint8 b.

Lemma blend_product_bounds : - 65025 <= (b - a) * alpha <= 65025.
Proof using Halpha Ha Hb. unfold in_uint8 in *. nia. Qed.

Lemma blend_product_exact :
  int_mul (to_int (int_sub b a)) alpha = (b - a) * alpha.
Proof using Halpha Ha Hb.
  pose proof blend_product_bounds as Hp.
  unfold int_mul, int_sub.
  rewrite (to_int_id (b - a)) by (unfold in_int, in_uint8 in *; lia).
  rewrite (to_int_id (b - a)) by (unfold in_int, in_uint8 in *; lia).
  apply to_int_id. unfold in_int. lia.
Qed.

Lemma blend_shift_bounds :
  Z.min a b - a <= Z.shiftr ((b - a) * alpha) 8 <= Z.max a b - a.
Proof using Halpha Ha Hb.
  rewrite shiftr8_div. unfold in_uint8 in *.
  pose proof (Z.div_mod ((b - a) * alpha) 256 ltac:(lia)) as Hdm.
  pose proof (Z.mod_pos_bound ((b - a) * alpha) 256 ltac:(lia)) as Hm.
  destruct (Z_le_gt_dec a b) as [Hab | Hab].
  - rewrite Z.min_l, Z.max_r by lia. split; nia.
  - rewrite Z.min_r, Z.max_l by lia. split; nia.
Qed.

Lemma blend_int_exact :
  blend_int alpha a b = a + Z.shiftr ((b - a) * alpha) 8.
Proof using Halpha Ha Hb.
  unfold blend_int. rewrite blend_product_exact.
  unfold int_add, int_shr. apply to_int_id.
  pose proof blend_shift_bounds. unfold in_int, in_uint8 in *. lia.
Qed.

Lemma blend_int_between :
  Z.min a b <= blend_int alpha a b <= Z.max a b.
Proof using Halpha Ha Hb.
  rewrite blend_int_exact. pose proof blend_shift_bounds. lia.
Qed.

Lemma blend_int_channel : in_uint8 (blend_int alpha a b).
Proof using Halpha Ha Hb.
  pose proof blend_int_between. unfold in_uint8 in *. lia.
Qed.

End BlendArith.

Lemma AlphaBlend_unfold _alpha a b :
  in_uint8 _alpha ->
  AlphaBlend _alpha a b = to_uint8 (blend_int _alpha a b).
Proof.
  intros H. unfold AlphaBlend, PixelAlphaOperation_call, PixelAlphaOperation_new.
  simpl. rewrite (to_uint8_id _ H).
  rewrite to_int_id; [reflexivity|]. unfold in_int, in_uint8 in *. lia.
Qed.

(** ** The alpha blend *)

Lemma AlphaBlend_exact _alpha a b :
  in_uint8 _alpha -> in_uint8 a -> in_uint8 b ->
  AlphaBlend _alpha a b = a + Z.shiftr ((b - a) * _alpha) 8.
Proof.
  intros Halpha Ha Hb. rewrite AlphaBlend_unfold by assumption.
  rewrite to_uint8_id by (apply blend_int_channel; assumption).
  apply blend_int_exact; assumption.
Qed.

(** C1: for channel values [a] (destination) and [b] (source) and an alpha in
    [0,255], the alpha blend returns exactly [a + (((b - a) * alpha) >> 8)],
    the subtraction, the product and the shift being those of unbounded
    signed integers; with alpha 0 it returns [a]; with alpha 255 it returns
    [a + (((b - a) * 255) >> 8)], which is [b - 1] and not [b] whenever
    [a < b]; and blending 0 towards 100 with alpha 128 gives 50. *)
Theorem AlphaBlend_formula (_alpha a b : Z) :
  in_uint8 _alpha -> in_uint8 a -> in_uint8 b ->
  AlphaBlend _alpha a b = a + Z.shiftr ((b - a) * _alpha) 8
  /\ AlphaBlend 0 a b = a
  /\ AlphaBlend 255 a b = a + Z.shiftr ((b - a) * 255) 8
  /\ (a < b -> AlphaBlend 255 a b = b - 1)
  /\ AlphaBlend 128 0 100 = 50.
Proof.
  intros Halpha Ha Hb.
  assert (H0 : in_uint8 0) by (unfold in_uint8; lia).
  assert (H255 : in_uint8 255) by (unfold in_uint8; lia).
  split; [apply AlphaBlend_exact; assumption|].
  split.
  { rewrite AlphaBlend_exact by assumption.
    rewrite Z.mul_0_r. rewrite Z.shiftr_0_l. lia. }
  split; [apply AlphaBlend_exact; assumption|].
  split; [|reflexivity].
  intros Hlt. rewrite AlphaBlend_exact by assumption.
  rewrite shiftr8_div. unfold in_uint8 in *.
  assert (Hq : (b - a) * 255 / 256 = b - a - 1); [|lia].
  symmetry. apply (Z.div_unique _ _ _ (256 - (b - a))); lia.
Qed.

Lemma AlphaBlend_formula_witness :
  AlphaBlend 200 7 30 = 7 + Z.shiftr ((30 - 7) * 200) 8
  /\ AlphaBlend 0 7 30 = 7
  /\ AlphaBlend 255 7 30 = 7 + Z.shiftr ((30 - 7) * 255) 8
  /\ (7 < 30 -> AlphaBlend 255 7 30 = 30 - 1)
  /\ AlphaBlend 128 0 100 = 50.
Proof.
  apply (AlphaBlend_formula 200 7 30); unfold in_uint8; lia.
Defined.

(** C5: for channel values [a], [b] and an alpha in [0,255] the alpha blend
    lies within [min(a,b), max(a,b)] up to one unit (in fact within the
    interval itself); the [int] product [(b - a) * alpha] is the exact
    product, of magnitude at most 65025, so it does not overflow; and the
    [int] sum is already a channel value, so the conversion back to the
    channel type loses nothing. *)
Theorem AlphaBlend_bounds (_alpha a b : Z) :
  in_uint8 _alpha -> in_uint8 a -> in_uint8 b ->
  (Z.min a b - 1 <= AlphaBlend _alpha a b <= Z.max a b + 1)
  /\ (Z.min a b <= AlphaBlend _alpha a b <= Z.max a b)
  /\ int_mul (to_int (int_sub b a)) _alpha = (b - a) * _alpha
  /\ in_int ((b - a) * _alpha)
  /\ - 65025 <= (b - a) * _alpha <= 65025
  /\ in_uint8 (blend_int _alpha a b)
  /\ AlphaBlend _alpha a b = blend_int _alpha a b.
Proof.
  intros Halpha Ha Hb.
  pose proof (blend_int_between _ _ _ Halpha Ha Hb) as Hbetween.
  pose proof (blend_int_channel _ _ _ Halpha Ha Hb) as Hchan.
  pose proof (blend_product_bounds _ _ _ Halpha Ha Hb) as Hprod.
  assert (Heq : AlphaBlend _alpha a b = blend_int _alpha a b).
  { rewrite AlphaBlend_unfold by assumption. apply to_uint8_id, Hchan. }
  rewrite Heq.
  split; [lia|]. split; [lia|].
  split; [apply blend_product_exact; assumption|].
  split; [unfold in_int; lia|].
  split; [lia|].
  split; [exact Hchan | reflexivity].
Qed.

Lemma AlphaBlend_bounds_witness :
  (Z.min 250 3 - 1 <= AlphaBlend 255 250 3 <= Z.max 250 3 + 1)
  /\ (Z.min 250 3 <= AlphaBlend 255 250 3 <= Z.max 250 3)
  /\ int_mul (to_int (int_sub 3 250)) 255 = (3 - 250) * 255
  /\ in_int ((3 - 250) * 255)
  /\ - 65025 <= (3 - 250) * 255 <= 65025
  /\ in_uint8 (blend_int 255 250 3)
  /\ AlphaBlend 255 250 3 = blend_int 255 250 3.
Proof.
  apply (AlphaBlend_bounds 255 250 3); unfold in_uint8; lia.
Defined.

(** ** Bit inversion *)

Lemma to_integer_lnot w x :
  0 <= w -> 0 <= x < 2 ^ w -> to_integer w (Z.lnot x) = 2 ^ w - 1 - x.
Proof.
  intros Hw Hx. unfold to_integer, Z.lnot.
  symmetry. apply (Z.mod_unique_pos _ _ (-1)); lia.
Qed.

(** C6: on the packed integers of a fixed width [w], that is on every [x]
    with [0 <= x < 2^w], applying bit-not twice returns [x]; bit-not stays
    within the width and flips each of the [w] bits. *)
Theorem PixelBitNot_involution (w x : Z) :
  0 <= w -> 0 <= x < 2 ^ w ->
  PixelBitNot w (PixelBitNot w x) = x
  /\ 0 <= PixelBitNot w x < 2 ^ w
  /\ forall i, 0 <= i < w ->
       Z.testbit (PixelBitNot w x) i = negb (Z.testbit x i).
Proof.
  intros Hw Hx. unfold PixelBitNot.
  rewrite (to_integer_lnot w x) by assumption.
  split; [|split].
  - rewrite to_integer_lnot by lia. lia.
  - lia.
  - intros i Hi.
    rewrite <- (to_integer_lnot w x) by assumption.
    unfold to_integer. rewrite Z.mod_pow2_bits_low by lia.
    apply Z.lnot_spec. lia.
Qed.

Lemma PixelBitNot_involution_witness :
  PixelBitNot 32 (PixelBitNot 32 305419896) = 305419896
  /\ 0 <= PixelBitNot 32 305419896 < 2 ^ 32
  /\ Z.testbit (PixelBitNot 32 305419896) 3
     = negb (Z.testbit 305419896 3).
Proof.
  destruct (PixelBitNot_involution 32 305419896 ltac:(lia) ltac:(lia))
    as (Hinv & Hrange & Hbits).
  split; [exact Hinv|]. split; [exact Hrange|].
  apply Hbits. lia.
Defined.

(** ** Effects *)

Section EffFacts.

Context {Mem E : Type}.

Lemma memory_bind {A B} (x : Eff Mem E A) (k : A -> Eff Mem E B) m :
  memory (bind x k m) = memory (k (result (x m)) (memory (x m))).
Proof.
  unfold bind, memory, result.
  destruct (x m) as [[a m1] t1]; simpl.
  destruct (k a m1) as [[b m2] t2]; reflexivity.
Qed.

Lemma trace_bind {A B} (x : Eff Mem E A) (k : A -> Eff Mem E B) m :
  trace (bind x k m)
  = trace (x m) ++ trace (k (result (x m)) (memory (x m))).
Proof.
  unfold bind, memory, result, trace.
  destruct (x m) as [[a m1] t1]; simpl.
  destruct (k a m1) as [[b m2] t2]; reflexivity.
Qed.

Lemma memory_lift {E' A} (inj : E' -> E) (x : Eff Mem E' A) m :
  memory (lift inj x m) = memory (x m).
Proof. unfold lift, memory. destruct (x m) as [[a m1] t1]; reflexivity. Qed.

Lemma trace_lift {E' A} (inj : E' -> E) (x : Eff Mem E' A) m :
  trace (lift inj x m) = map inj (trace (x m)).
Proof. unfold lift, trace. destruct (x m) as [[a m1] t1]; reflexivity. Qed.

Lemma memory_for_range_S start count (body : nat -> Eff Mem E unit) m :
  memory (for_range start (S count) body m)
  = memory (for_range (S start) count body (memory (body start m))).
Proof.
  exact (memory_bind (body start)
           (fun _ => for_range (S start) count body) m).
Qed.

Lemma trace_for_range_S start count (body : nat -> Eff Mem E unit) m :
  trace (for_range start (S count) body m)
  = trace (body start m)
    ++ trace (for_range (S start) count body (memory (body start m))).
Proof.
  exact (trace_bind (body start)
           (fun _ => for_range (S start) count body) m).
Qed.

(** A loop whose body does nothing does nothing. *)
Lemma for_range_skip (body : nat -> Eff Mem E unit) count :
  forall start m,
    (forall i m, body i m = (tt, m, [])) ->
    for_range start count body m = (tt, m, []).
Proof.
  induction count as [|count IH]; intros start m Hskip; [reflexivity|].
  simpl. unfold bind. rewrite Hskip. rewrite IH by assumption. reflexivity.
Qed.

(** The trace of a loop is the concatenation of one block per index, in
    increasing order of the indices, when each call of the body produces one
    block. *)
Lemma for_range_blocks {X} (B : nat -> X -> list E)
    (body : nat -> Eff Mem E unit) :
  (forall i m, exists x, trace (body i m) = B i x) ->
  forall count start m,
    exists xs : list X,
      length xs = count
      /\ trace (for_range start count body m)
         = concat (imap (fun j x => B (start + j)%nat x) xs).
Proof.
  intros Hbody. induction count as [|count IH]; intros start m.
  - exists []. split; reflexivity.
  - destruct (Hbody start m) as [x Hx].
    destruct (IH (S start) (memory (body start m))) as (xs & Hlen & Hxs).
    exists (x :: xs). split; [simpl; lia|].
    rewrite trace_for_range_S, Hx, Hxs. simpl.
    rewrite Nat.add_0_r. f_equal. f_equal.
    apply imap_ext. intros j y _. simpl. f_equal. lia.
Qed.

End EffFacts.

(** ** Write strategies *)

Section StrategyFacts.

Context {Mem C : Type}.
Variable PT : PixelTraits Mem C.

Lemma color_ne_true (a b : C) : color_ne PT a b = true <-> a <> b.
Proof.
  unfold color_ne. destruct (color_eq_dec PT a b); split; intros H;
    congruence.
Qed.

Lemma color_ne_false (a b : C) : color_ne PT a b = false <-> a = b.
Proof.
  unfold color_ne. destruct (color_eq_dec PT a b); split; intros H;
    congruence.
Qed.

Lemma UnaryWritePixel_run {S} (op : S -> C) p c m :
  UnaryWritePixel PT op p c m
  = (tt, WritePixel PT p (op c) m, [AccWrite p (op c)]).
Proof. reflexivity. Qed.

Lemma ConditionalWritePixel_run (check : C -> bool) p c m :
  ConditionalWritePixel PT check p c m
  = if check c then (tt, WritePixel PT p c m, [AccWrite p c])
    else (tt, m, []).
Proof. unfold ConditionalWritePixel. destruct (check c); reflexivity. Qed.

Lemma TransparentPixelOperations_written (k c : C) p m :
  c <> k ->
  TransparentPixelOperations PT (mkColorKey k) p c m
  = (tt, WritePixel PT p c m, [AccWrite p c]).
Proof.
  intros Hne. unfold TransparentPixelOperations.
  rewrite ConditionalWritePixel_run. unfold ColorKey_call. simpl.
  apply (color_ne_true c k) in Hne. rewrite Hne. reflexivity.
Qed.

Lemma TransparentPixelOperations_skipped (k : C) p m :
  TransparentPixelOperations PT (mkColorKey k) p k m = (tt, m, []).
Proof.
  unfold TransparentPixelOperations.
  rewrite ConditionalWritePixel_run. unfold ColorKey_call. simpl.
  assert (H : color_ne PT k k = false) by (apply color_ne_false; reflexivity).
  rewrite H. reflexivity.
Qed.

End StrategyFacts.

(** ** The greyscale descriptor *)

Module GreyscaleFacts.

Import Greyscale.

Lemma Greyscale_store : StoreContract G.
Proof.
  split; simpl.
  - intros p c d m. apply list_insert_insert_eq.
  - intros p q c d m Hpq. destruct (decide (p = q)) as [Heq | Hne].
    + rewrite (Hpq Heq), Heq. reflexivity.
    + apply list_insert_insert_ne. exact Hne.
Qed.

Lemma Greyscale_channels : ChannelContract G channels.
Proof. split; reflexivity. Qed.

Lemma Greyscale_valid_location (p : nat) (m : Mem) :
  (p < length m)%nat -> valid_location G p m.
Proof.
  intros Hp c. simpl.
  rewrite list_lookup_insert_eq by exact Hp. reflexivity.
Qed.

Lemma keyed_copy_step (k : Luminosity8) (n : nat) :
  forall rest_d rest_s done_d done_s,
    length rest_d = length rest_s ->
    length done_d = length done_s ->
    (length done_d + length rest_d = n)%nat ->
    memory (for_range (length done_d) (length rest_d)
              (fun i =>
                 bind (read_source G G (Next G n i))
                   (fun c => lift Dest
                      (PerPixelOperations_WritePixel G
                         (TransparentPixelOperations G (mkColorKey k))
                         (Next G 0%nat i) c)))
              (done_d ++ rest_d ++ done_s ++ rest_s))
    = done_d ++ zip_with (keyed k) rest_d rest_s ++ done_s ++ rest_s.
Proof.
  induction rest_d as [|d rest_d IH];
    intros rest_s done_d done_s Hrest Hdone Hn.
  { destruct rest_s; [reflexivity | discriminate]. }
  destruct rest_s as [|s rest_s]; [discriminate|].
  simpl in Hrest. injection Hrest as Hrest.
  cbn [length]. rewrite memory_for_range_S.
  rewrite memory_bind, memory_lift.
  set (m := done_d ++ (d :: rest_d) ++ done_s ++ s :: rest_s).
  assert (Hread : result (read_source G G (Next G n (length done_d)) m) = s).
  { unfold read_source, result. simpl. subst m.
    assert (Hidx : (n + length done_d
                    = length (done_d ++ (d :: rest_d) ++ done_s))%nat).
    { rewrite !length_app. simpl in *. lia. }
    rewrite Hidx.
    assert (Hm : done_d ++ (d :: rest_d) ++ done_s ++ s :: rest_s
                 = (done_d ++ (d :: rest_d) ++ done_s) ++ s :: rest_s).
    { rewrite <- !app_assoc. reflexivity. }
    rewrite Hm.
    rewrite lookup_app_r by lia.
    rewrite Nat.sub_diag. reflexivity. }
  rewrite Hread.
  assert (Hmem : memory (read_source G G (Next G n (length done_d)) m) = m)
    by reflexivity.
  rewrite Hmem. unfold PerPixelOperations_WritePixel at 2.
  assert (Hstep :
    memory (TransparentPixelOperations G (mkColorKey k)
              (Next G 0%nat (length done_d)) s m)
    = (done_d ++ [keyed k d s]) ++ rest_d ++ (done_s ++ [s]) ++ rest_s).
  { unfold keyed. destruct (decide (s = k)) as [-> | Hne].
    - rewrite TransparentPixelOperations_skipped. unfold memory. simpl.
      subst m. rewrite <- !app_assoc. reflexivity.
    - rewrite TransparentPixelOperations_written by exact Hne.
      unfold memory. simpl. subst m.
      replace (length done_d) with (length done_d + 0)%nat at 1 by lia.
      rewrite insert_app_r. simpl. rewrite <- !app_assoc. reflexivity. }
  rewrite Hstep.
  replace (S (length done_d)) with (length (done_d ++ [keyed k d s]))
    by (rewrite length_app; simpl; lia).
  rewrite IH.
  - rewrite <- !app_assoc. reflexivity.
  - exact Hrest.
  - rewrite !length_app. simpl. lia.
  - rewrite length_app. simpl. simpl in Hn. lia.
Qed.

End GreyscaleFacts.

(** ** Colour keying *)

(** C2: conditional write with the colour-key predicate writes the source
    colour [c] at the destination exactly when [c] differs from the key, and
    with [c] equal to the key it makes no access at all and leaves the memory
    as it was; so a keyed copy of a source row over a destination row of the
    same length keeps the destination pixel wherever the source pixel is the
    key and takes the source pixel elsewhere, and the source row
    [10, 200, 10, 250] copied with key 10 over [5, 5, 5, 5] gives
    [5, 200, 5, 250]. *)
Theorem ColorKey_conditional_write {Mem C} (PT : PixelTraits Mem C)
    (k c : C) (p : pointer_type PT) (m : Mem)
    (gk : Luminosity8) (dst src : list Luminosity8) :
  length dst = length src ->
  (c <> k ->
   TransparentPixelOperations PT (mkColorKey k) p c m
   = (tt, WritePixel PT p c m, [AccWrite p c]))
  /\ (c = k ->
      TransparentPixelOperations PT (mkColorKey k) p c m = (tt, m, []))
  /\ memory (CopyPixels Greyscale.G Greyscale.G
               (TransparentPixelOperations Greyscale.G (mkColorKey gk))
               0%nat (length dst) (length dst) (dst ++ src))
     = zip_with (Greyscale.keyed gk) dst src ++ src
  /\ Greyscale.span 0 4
       (memory (CopyPixels Greyscale.G Greyscale.G
                  (TransparentPixelOperations Greyscale.G
                     (mkColorKey (mkLuminosity8 10)))
                  0%nat 4%nat 4
                  (Greyscale.row [5; 5; 5; 5]
                   ++ Greyscale.row [10; 200; 10; 250])))
     = [5; 200; 5; 250].
Proof.
  intros Hlen. split; [|split; [|split]].
  - apply TransparentPixelOperations_written.
  - intros ->. apply TransparentPixelOperations_skipped.
  - pose proof (GreyscaleFacts.keyed_copy_step gk (length dst)
                  dst src [] []) as H.
    simpl in H.
    unfold CopyPixels, for_upto. apply H; [exact Hlen | reflexivity
                                          | reflexivity].
  - reflexivity.
Qed.

Lemma ColorKey_conditional_write_witness :
  TransparentPixelOperations Greyscale.G (mkColorKey (mkLuminosity8 10))
    1%nat (mkLuminosity8 200) (Greyscale.row [5; 5; 5; 5])
  = (tt, Greyscale.row [5; 200; 5; 5],
     [AccWrite (PT := Greyscale.G) 1%nat (mkLuminosity8 200)])
  /\ memory (CopyPixels Greyscale.G Greyscale.G
               (TransparentPixelOperations Greyscale.G
                  (mkColorKey (mkLuminosity8 10)))
               0%nat 4%nat 4
               (Greyscale.row [5; 5; 5; 5]
                ++ Greyscale.row [10; 200; 10; 250]))
     = Greyscale.row [5; 200; 5; 250]
       ++ Greyscale.row [10; 200; 10; 250].
Proof.
  destruct (ColorKey_conditional_write Greyscale.G
              (mkLuminosity8 10) (mkLuminosity8 200) 1%nat
              (Greyscale.row [5; 5; 5; 5]) (mkLuminosity8 10)
              (Greyscale.row [5; 5; 5; 5])
              (Greyscale.row [10; 200; 10; 250]) eq_refl)
    as (Hw & _ & Hcopy & _).
  split; [apply Hw; discriminate | exact Hcopy].
Defined.

(** ** Opaque text *)

(** C7: the opaque-text operation returns the background colour when the
    source pixel is black for the source format and the text colour
    otherwise; one of the two cases holds for every source pixel, and the
    write strategy built on it writes that colour. *)
Theorem PixelOpaqueText_mapping {Mem C S} (PT : PixelTraits Mem C)
    (SPT : PixelTraits Mem S) (op : PixelOpaqueText C) (x : S)
    (p : pointer_type PT) (m : Mem) :
  PixelOpaqueText_call SPT op x
  = (if IsBlack SPT x then background_color op else text_color op)
  /\ ((IsBlack SPT x = true
       /\ PixelOpaqueText_call SPT op x = background_color op)
      \/ (IsBlack SPT x = false
          /\ PixelOpaqueText_call SPT op x = text_color op))
  /\ OpaqueTextPixelOperations PT SPT op p x m
     = (tt, WritePixel PT p (PixelOpaqueText_call SPT op x) m,
        [AccWrite p (PixelOpaqueText_call SPT op x)]).
Proof.
  unfold PixelOpaqueText_call.
  split; [reflexivity|]. split; [|reflexivity].
  destruct (IsBlack SPT x); [left | right]; split; reflexivity.
Qed.

(** ** Transparent invert *)

(** C8: transparent invert writes the bit-not of the source colour [c],
    taken on its packed integer, at the destination exactly when [c]
    differs from the key, and with [c] equal to the key it makes no access
    and leaves the memory as it was; on an 8-bit greyscale pixel of
    luminosity [l] the colour written has luminosity [255 - l]. *)
Theorem TransparentInvert_WritePixel {Mem C} (PT : PixelTraits Mem C)
    (k c : C) (p : pointer_type PT) (m : Mem) (l : Z) :
  in_uint8 l ->
  (c <> k ->
   TransparentInvertPixelOperations PT k p c m
   = (tt,
      WritePixel PT p
        (TransformInteger PT c (PixelBitNot (integer_bits PT))) m,
      [AccWrite p (TransformInteger PT c (PixelBitNot (integer_bits PT)))]))
  /\ (c = k -> TransparentInvertPixelOperations PT k p c m = (tt, m, []))
  /\ TransformInteger Greyscale.G (mkLuminosity8 l)
       (PixelBitNot (integer_bits Greyscale.G))
     = mkLuminosity8 (255 - l).
Proof.
  intros Hl. unfold TransparentInvertPixelOperations, PixelIntegerAdapter.
  split; [|split].
  - intros Hne. apply (color_ne_true PT c k) in Hne. rewrite Hne.
    reflexivity.
  - intros Heq. apply (color_ne_false PT c k) in Heq. rewrite Heq.
    reflexivity.
  - simpl. unfold PixelBitNot.
    rewrite to_integer_lnot by (unfold in_uint8 in Hl; lia).
    f_equal. unfold to_integer. unfold in_uint8 in Hl.
    rewrite Z.mod_small; lia.
Qed.

Lemma TransparentInvert_WritePixel_witness :
  TransparentInvertPixelOperations Greyscale.G (mkLuminosity8 10)
    2%nat (mkLuminosity8 200) (Greyscale.row [5; 5; 5; 5])
  = (tt, Greyscale.row [5; 5; 55; 5],
     [AccWrite (PT := Greyscale.G) 2%nat (mkLuminosity8 55)])
  /\ TransparentInvertPixelOperations Greyscale.G (mkLuminosity8 10)
       2%nat (mkLuminosity8 10) (Greyscale.row [5; 5; 5; 5])
     = (tt, Greyscale.row [5; 5; 5; 5], []).
Proof.
  split.
  - refine (proj1 (TransparentInvert_WritePixel Greyscale.G
                     (mkLuminosity8 10) (mkLuminosity8 200) 2%nat
                     (Greyscale.row [5; 5; 5; 5]) 200 _) _).
    + unfold in_uint8; lia.
    + discriminate.
  - refine (proj1 (proj2 (TransparentInvert_WritePixel Greyscale.G
                     (mkLuminosity8 10) (mkLuminosity8 10) 2%nat
                     (Greyscale.row [5; 5; 5; 5]) 200 _)) eq_refl).
    unfold in_uint8; lia.
Defined.

(** ** Spans *)

Section SpanFacts.

Context {Mem C : Type}.
Variable PT : PixelTraits Mem C.

(** A loop that writes one colour at [Next(p, i)] for each index. *)
Lemma for_range_write_pixel (v : C) (p : pointer_type PT) count :
  forall start m,
    for_range start count (fun i => write_pixel PT (Next PT p i) v) m
    = (tt,
       write_all PT v (map (Next PT p) (seq start count)) m,
       map (fun q => AccWrite q v) (map (Next PT p) (seq start count))).
Proof.
  induction count as [|count IH]; intros start m; [reflexivity|].
  simpl. unfold bind. simpl. rewrite IH. reflexivity.
Qed.

Lemma FillPixels_unary {S} (op : S -> C) p n c m :
  FillPixels PT (UnaryWritePixel PT op) p n c m
  = (tt,
     write_all PT (op c) (span_pointers PT p n) m,
     map (fun q => AccWrite q (op c)) (span_pointers PT p n)).
Proof.
  unfold FillPixels, ForHorizontal, for_upto, span_pointers.
  apply (for_range_write_pixel (op c) p n 0 m).
Qed.

Lemma FillPixels_conditional (check : C -> bool) p n c m :
  FillPixels PT (ConditionalWritePixel PT check) p n c m
  = if check c
    then (tt,
          write_all PT c (span_pointers PT p n) m,
          map (fun q => AccWrite q c) (span_pointers PT p n))
    else (tt, m, []).
Proof.
  unfold FillPixels, ForHorizontal, for_upto, span_pointers,
    PerPixelOperations_WritePixel, ConditionalWritePixel.
  destruct (check c).
  - apply (for_range_write_pixel c p n 0 m).
  - apply for_range_skip. reflexivity.
Qed.

Section Store.

Hypothesis store : StoreContract PT.

Lemma WritePixel_swap (v : C) (p q : pointer_type PT) (m : Mem) :
  WritePixel PT p v (WritePixel PT q v m)
  = WritePixel PT q v (WritePixel PT p v m).
Proof using store.
  apply (WritePixel_commute PT store). reflexivity.
Qed.

Lemma write_all_WritePixel (v : C) (q : pointer_type PT) ps :
  forall m,
    write_all PT v ps (WritePixel PT q v m)
    = WritePixel PT q v (write_all PT v ps m).
Proof using store.
  induction ps as [|a ps IH]; intros m; [reflexivity|].
  simpl. rewrite WritePixel_swap. apply IH.
Qed.

Lemma write_all_idempotent (v : C) ps :
  forall m, write_all PT v ps (write_all PT v ps m) = write_all PT v ps m.
Proof using store.
  induction ps as [|a ps IH]; intros m; [reflexivity|].
  simpl. rewrite <- write_all_WritePixel.
  rewrite (WritePixel_twice PT store). apply IH.
Qed.

End Store.

End SpanFacts.

(** C3, as amended: with the direct-write strategy (any operation of one
    colour) and with the conditional-write strategy (any predicate), over a
    descriptor whose writes replace and do not interfere, [FillPixels]
    applied twice in a row with the same arguments leaves the memory that
    applying it once leaves, and what it commits is decided by [c] alone: the
    operation applied to [c] at each of the [n] positions for direct write,
    [c] itself at each of them or nothing at all for conditional write,
    whatever the destination held.  The blend-write strategy is left out: it
    commits the operation applied to the pixel it reads at the destination
    and to [c]. *)
Theorem FillPixels_idempotent {Mem C S} (PT : PixelTraits Mem C)
    (op : S -> C) (check : C -> bool) (op2 : C -> S -> C)
    (p : pointer_type PT) (n : nat) (c : S) (d : C) (m m' : Mem) :
  StoreContract PT ->
  memory (FillPixels PT (UnaryWritePixel PT op) p n c
            (memory (FillPixels PT (UnaryWritePixel PT op) p n c m)))
  = memory (FillPixels PT (UnaryWritePixel PT op) p n c m)
  /\ trace (FillPixels PT (UnaryWritePixel PT op) p n c m)
     = map (fun q => AccWrite q (op c)) (span_pointers PT p n)
  /\ trace (FillPixels PT (UnaryWritePixel PT op) p n c m)
     = trace (FillPixels PT (UnaryWritePixel PT op) p n c m')
  /\ memory (FillPixels PT (ConditionalWritePixel PT check) p n d
               (memory (FillPixels PT (ConditionalWritePixel PT check)
                          p n d m)))
     = memory (FillPixels PT (ConditionalWritePixel PT check) p n d m)
  /\ trace (FillPixels PT (ConditionalWritePixel PT check) p n d m)
     = (if check d
        then map (fun q => AccWrite q d) (span_pointers PT p n)
        else [])
  /\ trace (FillPixels PT (ConditionalWritePixel PT check) p n d m)
     = trace (FillPixels PT (ConditionalWritePixel PT check) p n d m')
  /\ BinaryWritePixel PT op2 p c m
     = (tt, WritePixel PT p (op2 (ReadPixel PT p m) c) m,
        [AccRead p (ReadPixel PT p m);
         AccWrite p (op2 (ReadPixel PT p m) c)]).
Proof.
  intros store.
  rewrite !FillPixels_unary, !FillPixels_conditional.
  unfold memory, trace; simpl.
  split; [apply write_all_idempotent; exact store|].
  split; [reflexivity|]. split; [reflexivity|].
  destruct (check d); simpl.
  - split; [apply write_all_idempotent; exact store|].
    split; [reflexivity|]. split; reflexivity.
  - split; [reflexivity|]. split; [reflexivity|]. split; reflexivity.
Qed.

Lemma FillPixels_idempotent_witness :
  memory (FillPixels Greyscale.G
            (UnaryWritePixel Greyscale.G
               (PixelIntegerAdapter Greyscale.G (PixelBitNot 8)))
            1%nat 2 (mkLuminosity8 10)
            (memory (FillPixels Greyscale.G
                       (UnaryWritePixel Greyscale.G
                          (PixelIntegerAdapter Greyscale.G (PixelBitNot 8)))
                       1%nat 2 (mkLuminosity8 10)
                       (Greyscale.row [5; 6; 7; 8]))))
  = Greyscale.row [5; 245; 245; 8].
Proof.
  refine (eq_trans
            (proj1 (FillPixels_idempotent Greyscale.G
                      (PixelIntegerAdapter Greyscale.G (PixelBitNot 8))
                      (fun _ => true) (fun a _ => a)
                      1%nat 2 (mkLuminosity8 10) (mkLuminosity8 10)
                      (Greyscale.row [5; 6; 7; 8])
                      (Greyscale.row [5; 6; 7; 8])
                      GreyscaleFacts.Greyscale_store)) _).
  reflexivity.
Defined.

(** The claim C3 as stated fails for the blend-write strategy: filling one
    greyscale pixel that holds 0 with colour 100 through the alpha blend at
    alpha 128 leaves 50, and filling again leaves 75. *)
Lemma FillPixels_blend_not_idempotent :
  let fill :=
    FillPixels Greyscale.G
      (AlphaPixelOperations Greyscale.G (PixelAlphaOperation_new 128))
      0%nat 1 (mkLuminosity8 100) in
  memory (fill (Greyscale.row [0])) = Greyscale.row [50]
  /\ memory (fill (memory (fill (Greyscale.row [0])))) = Greyscale.row [75]
  /\ memory (fill (memory (fill (Greyscale.row [0]))))
     <> memory (fill (Greyscale.row [0]))
  /\ trace (fill (Greyscale.row [0])) <> trace (fill (Greyscale.row [200])).
Proof.
  cbv zeta.
  split; [reflexivity|]. split; [reflexivity|].
  split; vm_compute; discriminate.
Qed.

(** ** Copies *)

Section ProjectionFacts.

Context {Mem E : Type}.

(** What a projection keeps of the trace of a loop, when it keeps the same
    of every call of the body at one index. *)
Lemma for_range_omap {X} (g : E -> option X) (h : nat -> list X)
    (body : nat -> Eff Mem E unit) :
  (forall i m, omap g (trace (body i m)) = h i) ->
  forall count start m,
    omap g (trace (for_range start count body m))
    = concat (map h (seq start count)).
Proof.
  intros Hbody. induction count as [|count IH]; intros start m.
  - reflexivity.
  - rewrite trace_for_range_S, omap_app, Hbody, IH. reflexivity.
Qed.

Lemma concat_map_singleton {X Y} (f : X -> Y) (l : list X) :
  concat (map (fun x => [f x]) l) = map f l.
Proof. induction l as [|x l IH]; simpl; [|rewrite IH]; reflexivity. Qed.

Lemma concat_map_nil {X Y} (l : list X) :
  concat (map (fun _ => @nil Y) l) = [].
Proof. induction l as [|x l IH]; simpl; [|rewrite IH]; reflexivity. Qed.

End ProjectionFacts.

Section CopyFacts.

Context {Mem C S : Type}.
Variable PT : PixelTraits Mem C.
Variable SPT : PixelTraits Mem S.
Variable W : WritePixelOperation S PT.
Variable p : pointer_type PT.
Variable src : pointer_type SPT.

(** The body of the loop of [CopyPixels]. *)
Lemma CopyPixels_unfold n :
  CopyPixels PT SPT W p src n
  = for_range 0 n (fun i =>
      bind (read_source PT SPT (Next SPT src i))
        (fun c => lift Dest
           (PerPixelOperations_WritePixel PT W (Next PT p i) c))).
Proof. reflexivity. Qed.

Lemma copy_body_trace i m :
  trace (bind (read_source PT SPT (Next SPT src i))
           (fun c => lift Dest
              (PerPixelOperations_WritePixel PT W (Next PT p i) c)) m)
  = SrcRead (Next SPT src i) (ReadPixel SPT (Next SPT src i) m)
    :: map Dest
         (trace (W (Next PT p i) (ReadPixel SPT (Next SPT src i) m) m)).
Proof. rewrite trace_bind, trace_lift. reflexivity. Qed.

Lemma source_reads_Dest (t : list (access PT)) :
  source_reads PT SPT (map Dest t) = [].
Proof. induction t as [|a t IH]; [reflexivity | exact IH]. Qed.

Lemma CopyPixels_source_reads n m :
  source_reads PT SPT (trace (CopyPixels PT SPT W p src n m))
  = map (Next SPT src) (seq 0 n).
Proof.
  rewrite CopyPixels_unfold. unfold source_reads.
  rewrite (for_range_omap _ (fun i => [Next SPT src i])).
  - apply concat_map_singleton.
  - intros i m'. rewrite copy_body_trace. simpl.
    f_equal. apply source_reads_Dest.
Qed.

Lemma CopyPixels_steps n m :
  exists steps : list (S * Mem),
    length steps = n
    /\ trace (CopyPixels PT SPT W p src n m)
       = concat (imap (fun i step =>
                         SrcRead (Next SPT src i) (fst step)
                         :: map Dest
                              (trace (W (Next PT p i) (fst step)
                                        (snd step))))
                   steps).
Proof.
  rewrite CopyPixels_unfold.
  apply (for_range_blocks
           (fun i (step : S * Mem) =>
              SrcRead (Next SPT src i) (fst step)
              :: map Dest (trace (W (Next PT p i) (fst step) (snd step))))).
  intros i m'. exists (ReadPixel SPT (Next SPT src i) m', m').
  apply copy_body_trace.
Qed.

Lemma CopyPixels_zero m : CopyPixels PT SPT W p src 0 m = (tt, m, []).
Proof. reflexivity. Qed.

End CopyFacts.

Section CopyStrategies.

Context {Mem C S : Type}.
Variable PT : PixelTraits Mem C.
Variable SPT : PixelTraits Mem S.
Variable p : pointer_type PT.
Variable src : pointer_type SPT.

Lemma CopyPixels_unary_blocks (op : S -> C) n m :
  exists cs : list S,
    length cs = n
    /\ trace (CopyPixels PT SPT (UnaryWritePixel PT op) p src n m)
       = concat (imap (fun i c =>
                         [SrcRead (Next SPT src i) c;
                          Dest (AccWrite (Next PT p i) (op c))])
                   cs).
Proof.
  rewrite CopyPixels_unfold.
  apply (for_range_blocks
           (fun i c => [SrcRead (Next SPT src i) c;
                        Dest (AccWrite (Next PT p i) (op c))])).
  intros i m'. exists (ReadPixel SPT (Next SPT src i) m').
  rewrite copy_body_trace. reflexivity.
Qed.

Lemma CopyPixels_unary_writes (op : S -> C) n m :
  dest_writes PT SPT
    (trace (CopyPixels PT SPT (UnaryWritePixel PT op) p src n m))
  = span_pointers PT p n
  /\ dest_reads PT SPT
       (trace (CopyPixels PT SPT (UnaryWritePixel PT op) p src n m))
     = [].
Proof.
  rewrite CopyPixels_unfold. unfold dest_writes, dest_reads, span_pointers.
  split.
  - rewrite (for_range_omap _ (fun i => [Next PT p i])).
    + apply concat_map_singleton.
    + intros i m'. rewrite copy_body_trace. reflexivity.
  - rewrite (for_range_omap _ (fun i => [])).
    + apply concat_map_nil.
    + intros i m'. rewrite copy_body_trace. reflexivity.
Qed.

Lemma CopyPixels_binary_blocks (op : C -> S -> C) n m :
  exists cds : list (S * C),
    length cds = n
    /\ trace (CopyPixels PT SPT (BinaryWritePixel PT op) p src n m)
       = concat (imap (fun i cd =>
                         [SrcRead (Next SPT src i) (fst cd);
                          Dest (AccRead (Next PT p i) (snd cd));
                          Dest (AccWrite (Next PT p i)
                                  (op (snd cd) (fst cd)))])
                   cds).
Proof.
  rewrite CopyPixels_unfold.
  apply (for_range_blocks
           (fun i (cd : S * C) =>
              [SrcRead (Next SPT src i) (fst cd);
               Dest (AccRead (Next PT p i) (snd cd));
               Dest (AccWrite (Next PT p i) (op (snd cd) (fst cd)))])).
  intros i m'.
  exists (ReadPixel SPT (Next SPT src i) m', ReadPixel PT (Next PT p i) m').
  rewrite copy_body_trace. reflexivity.
Qed.

Lemma CopyPixels_binary_writes (op : C -> S -> C) n m :
  dest_writes PT SPT
    (trace (CopyPixels PT SPT (BinaryWritePixel PT op) p src n m))
  = span_pointers PT p n
  /\ dest_reads PT SPT
       (trace (CopyPixels PT SPT (BinaryWritePixel PT op) p src n m))
     = span_pointers PT p n.
Proof.
  rewrite CopyPixels_unfold. unfold dest_writes, dest_reads, span_pointers.
  split.
  - rewrite (for_range_omap _ (fun i => [Next PT p i])).
    + apply concat_map_singleton.
    + intros i m'. rewrite copy_body_trace. reflexivity.
  - rewrite (for_range_omap _ (fun i => [Next PT p i])).
    + apply concat_map_singleton.
    + intros i m'. rewrite copy_body_trace. reflexivity.
Qed.

End CopyStrategies.

Lemma CopyPixels_conditional_blocks {Mem C} (PT SPT : PixelTraits Mem C)
    (check : C -> bool) p src n m :
  exists cs : list C,
    length cs = n
    /\ trace (CopyPixels PT SPT (ConditionalWritePixel PT check) p src n m)
       = concat (imap (fun i c =>
                         SrcRead (Next SPT src i) c
                         :: (if check c
                             then [Dest (AccWrite (Next PT p i) c)]
                             else []))
                   cs).
Proof.
  rewrite CopyPixels_unfold.
  apply (for_range_blocks
           (fun i c => SrcRead (Next SPT src i) c
                       :: (if check c
                           then [Dest (AccWrite (Next PT p i) c)]
                           else []))).
  intros i m'. exists (ReadPixel SPT (Next SPT src i) m').
  rewrite copy_body_trace. f_equal.
  unfold ConditionalWritePixel.
  destruct (check (ReadPixel SPT (Next SPT src i) m')); reflexivity.
Qed.

(** C4, as amended: for every [n], [CopyPixels] visits the positions
    0, 1, ..., n-1 in increasing order, reads exactly the [n] source pixels
    at those positions, one per position, and calls the write strategy once
    per position with the source pixel just read, nothing else; with direct
    write it then writes position [i] of the destination with the operation
    applied to source pixel [i], [n] writes and no read of the destination;
    with blend write it reads and then writes position [i], [n] reads and
    [n] writes; with conditional write it writes position [i] only when the
    predicate holds of source pixel [i]; and for [n = 0] it makes no access
    and leaves the memory as it was. *)
Theorem CopyPixels_span {Mem C S} (PT : PixelTraits Mem C)
    (SPT : PixelTraits Mem S) (KPT : PixelTraits Mem C)
    (W : WritePixelOperation S PT)
    (op : S -> C) (op2 : C -> S -> C) (check : C -> bool)
    (p : pointer_type PT) (src : pointer_type SPT) (ksrc : pointer_type KPT)
    (n : nat) (m : Mem) :
  source_reads PT SPT (trace (CopyPixels PT SPT W p src n m))
  = map (Next SPT src) (seq 0 n)
  /\ (exists steps : list (S * Mem),
        length steps = n
        /\ trace (CopyPixels PT SPT W p src n m)
           = concat (imap (fun i step =>
                             SrcRead (Next SPT src i) (fst step)
                             :: map Dest
                                  (trace (W (Next PT p i) (fst step)
                                            (snd step))))
                       steps))
  /\ (exists cs : list S,
        length cs = n
        /\ trace (CopyPixels PT SPT (UnaryWritePixel PT op) p src n m)
           = concat (imap (fun i c =>
                             [SrcRead (Next SPT src i) c;
                              Dest (AccWrite (Next PT p i) (op c))])
                       cs))
  /\ (dest_writes PT SPT
        (trace (CopyPixels PT SPT (UnaryWritePixel PT op) p src n m))
      = span_pointers PT p n
      /\ dest_reads PT SPT
           (trace (CopyPixels PT SPT (UnaryWritePixel PT op) p src n m))
         = [])
  /\ (exists cds : list (S * C),
        length cds = n
        /\ trace (CopyPixels PT SPT (BinaryWritePixel PT op2) p src n m)
           = concat (imap (fun i cd =>
                             [SrcRead (Next SPT src i) (fst cd);
                              Dest (AccRead (Next PT p i) (snd cd));
                              Dest (AccWrite (Next PT p i)
                                      (op2 (snd cd) (fst cd)))])
                       cds))
  /\ (dest_writes PT SPT
        (trace (CopyPixels PT SPT (BinaryWritePixel PT op2) p src n m))
      = span_pointers PT p n
      /\ dest_reads PT SPT
           (trace (CopyPixels PT SPT (BinaryWritePixel PT op2) p src n m))
         = span_pointers PT p n)
  /\ (exists cs : list C,
        length cs = n
        /\ trace (CopyPixels PT KPT (ConditionalWritePixel PT check)
                    p ksrc n m)
           = concat (imap (fun i c =>
                             SrcRead (Next KPT ksrc i) c
                             :: (if check c
                                 then [Dest (AccWrite (Next PT p i) c)]
                                 else []))
                       cs))
  /\ CopyPixels PT SPT W p src 0 m = (tt, m, []).
Proof.
  split; [apply CopyPixels_source_reads|].
  split; [apply CopyPixels_steps|].
  split; [apply CopyPixels_unary_blocks|].
  split; [apply CopyPixels_unary_writes|].
  split; [apply CopyPixels_binary_blocks|].
  split; [apply CopyPixels_binary_writes|].
  split; [apply CopyPixels_conditional_blocks|].
  apply CopyPixels_zero.
Qed.

(** The claim C4 as stated fails for the conditional-write strategy: the
    keyed copy of Scenario A reads its 4 source pixels and writes 2 of the 4
    destination pixels, positions 1 and 3; position 0 keeps its 5 and does
    not receive source pixel 0. *)
Lemma CopyPixels_keyed_writes_fewer :
  let copy :=
    CopyPixels Greyscale.G Greyscale.G
      (TransparentPixelOperations Greyscale.G
         (mkColorKey (mkLuminosity8 10)))
      0%nat 4%nat 4
      (Greyscale.row [5; 5; 5; 5] ++ Greyscale.row [10; 200; 10; 250]) in
  source_reads Greyscale.G Greyscale.G (trace copy)
  = [4%nat; 5%nat; 6%nat; 7%nat]
  /\ dest_writes Greyscale.G Greyscale.G (trace copy) = [1%nat; 3%nat]
  /\ length (dest_writes Greyscale.G Greyscale.G (trace copy)) <> 4%nat
  /\ ReadPixel Greyscale.G 0%nat (memory copy) = mkLuminosity8 5
  /\ ReadPixel Greyscale.G 0%nat (memory copy) <> mkLuminosity8 10.
Proof.
  cbv zeta.
  split; [reflexivity|]. split; [reflexivity|].
  split; [vm_compute; discriminate|].
  split; [reflexivity|]. vm_compute; discriminate.
Qed.

(** ** Opaque alpha *)

Lemma zip_with_ext_Forall {X Y} (P : X -> Prop) (f g : X -> X -> Y) :
  (forall x y, P x -> P y -> f x y = g x y) ->
  forall l1 l2,
    Forall P l1 -> Forall P l2 -> zip_with f l1 l2 = zip_with g l1 l2.
Proof.
  intros Hfg l1. induction l1 as [|x l1 IH]; intros l2 H1 H2;
    [reflexivity|].
  destruct l2 as [|y l2]; [reflexivity|].
  apply Forall_cons in H1 as [Hx H1].
  apply Forall_cons in H2 as [Hy H2].
  simpl. rewrite Hfg by assumption. rewrite IH by assumption. reflexivity.
Qed.

Lemma opaque_alpha_channel (s x y : Z) :
  in_uint8 s -> in_uint8 x -> in_uint8 y ->
  to_uint8 (blend_int (to_int s) x y) = x + Z.shiftr ((y - x) * s) 8.
Proof.
  intros Hs Hx Hy.
  rewrite (to_int_id s) by (unfold in_int, in_uint8 in *; lia).
  rewrite to_uint8_id by (apply blend_int_channel; assumption).
  apply blend_int_exact; assumption.
Qed.

(** C9: what opaque alpha commits depends only on the coverage sample [s]
    and on the two colours it was built with: written through it on two
    memories, whatever they hold, the same sample yields the same write of
    the same colour, the pixel read back at a valid location is that colour
    in both, and each channel of it is
    [colorA + (((colorB - colorA) * s) >> 8)] on the channels of the two
    colours. *)
Theorem OpaqueAlpha_ignores_destination {Mem C} (PT : PixelTraits Mem C)
    (channels : C -> list Z) (colorA colorB : C) (s : Luminosity8)
    (p : pointer_type PT) (m1 m2 : Mem) :
  ChannelContract PT channels ->
  in_uint8 (GetLuminosity s) ->
  Forall in_uint8 (channels colorA) ->
  Forall in_uint8 (channels colorB) ->
  valid_location PT p m1 ->
  valid_location PT p m2 ->
  trace (OpaqueAlphaPixelOperations PT
           (mkPixelOpaqueAlpha colorA colorB) p s m1)
  = trace (OpaqueAlphaPixelOperations PT
             (mkPixelOpaqueAlpha colorA colorB) p s m2)
  /\ trace (OpaqueAlphaPixelOperations PT
              (mkPixelOpaqueAlpha colorA colorB) p s m1)
     = [AccWrite p
          (PixelOpaqueAlpha_call PT (mkPixelOpaqueAlpha colorA colorB) s)]
  /\ ReadPixel PT p
       (memory (OpaqueAlphaPixelOperations PT
                  (mkPixelOpaqueAlpha colorA colorB) p s m1))
     = ReadPixel PT p
         (memory (OpaqueAlphaPixelOperations PT
                    (mkPixelOpaqueAlpha colorA colorB) p s m2))
  /\ ReadPixel PT p
       (memory (OpaqueAlphaPixelOperations PT
                  (mkPixelOpaqueAlpha colorA colorB) p s m1))
     = PixelOpaqueAlpha_call PT (mkPixelOpaqueAlpha colorA colorB) s
  /\ channels
       (PixelOpaqueAlpha_call PT (mkPixelOpaqueAlpha colorA colorB) s)
     = zip_with
         (fun a b => a + Z.shiftr ((b - a) * GetLuminosity s) 8)
         (channels colorA) (channels colorB).
Proof.
  intros contract Hs HA HB Hv1 Hv2.
  unfold OpaqueAlphaPixelOperations.
  rewrite !UnaryWritePixel_run. unfold trace, memory. simpl.
  split; [reflexivity|]. split; [reflexivity|].
  split; [rewrite Hv1, Hv2; reflexivity|].
  split; [apply Hv1|].
  unfold PixelOpaqueAlpha_call. simpl.
  rewrite (TransformChannels2_spec PT channels contract).
  apply (zip_with_ext_Forall in_uint8); [|assumption|assumption].
  intros x y Hx Hy. apply opaque_alpha_channel; assumption.
Qed.

Lemma OpaqueAlpha_ignores_destination_witness :
  ReadPixel Greyscale.G 1%nat
    (memory (OpaqueAlphaPixelOperations Greyscale.G
               (mkPixelOpaqueAlpha (mkLuminosity8 20) (mkLuminosity8 220))
               1%nat (mkLuminosity8 128) (Greyscale.row [1; 2; 3])))
  = ReadPixel Greyscale.G 1%nat
      (memory (OpaqueAlphaPixelOperations Greyscale.G
                 (mkPixelOpaqueAlpha (mkLuminosity8 20) (mkLuminosity8 220))
                 1%nat (mkLuminosity8 128) (Greyscale.row [250; 251; 252])))
  /\ Greyscale.channels
       (PixelOpaqueAlpha_call Greyscale.G
          (mkPixelOpaqueAlpha (mkLuminosity8 20) (mkLuminosity8 220))
          (mkLuminosity8 128))
     = [120].
Proof.
  assert (H8 : forall x, 0 <= x <= 255 -> Forall in_uint8 [x]).
  { intros x Hx. apply Forall_cons. split; [exact Hx | apply Forall_nil].
    exact I. }
  pose proof (OpaqueAlpha_ignores_destination Greyscale.G
                Greyscale.channels (mkLuminosity8 20) (mkLuminosity8 220) (mkLuminosity8 128)
                1%nat (Greyscale.row [1; 2; 3])
                (Greyscale.row [250; 251; 252])
                GreyscaleFacts.Greyscale_channels
                ltac:(unfold in_uint8; simpl; lia)
                (H8 20 ltac:(lia)) (H8 220 ltac:(lia))
                (GreyscaleFacts.Greyscale_valid_location 1
                   (Greyscale.row [1; 2; 3]) ltac:(simpl; lia))
                (GreyscaleFacts.Greyscale_valid_location 1
                   (Greyscale.row [250; 251; 252]) ltac:(simpl; lia)))
    as (_ & _ & Hsame & _ & Hchan).
  split; [exact Hsame | exact Hchan].
Defined.

(** ** The XCOM760 radio driver *)

Module XCOM760Facts.

Import XCOM760.

Lemma length_append (s1 s2 : string) :
  String.length (String.append s1 s2)
  = (String.length s1 + String.length s2)%nat.
Proof.
  induction s1 as [|a s1 IH]; simpl; [|rewrite IH]; reflexivity.
Qed.

Lemma Port_Write_grows (s : string) (port : Port) :
  (0 < String.length s)%nat -> Port_Write s port <> port.
Proof.
  intros Hs Heq. apply (f_equal String.length) in Heq.
  unfold Port_Write in Heq. rewrite length_append in Heq. lia.
Qed.

End XCOM760Facts.

(** C10: for every frequency, [PutStandbyFrequency] returns true and leaves
    the port as it was, nothing being written to it, whereas
    [PutActiveFrequency] returns true after writing its command, the text
    [$TXAF=] followed by the megahertz, a dot, the three digits of the
    kilohertz and a line end, to the port, which is thereby changed. *)
Theorem PutStandbyFrequency_writes_nothing
    (frequency : XCOM760.RadioFrequency) (port : XCOM760.Port) :
  XCOM760.PutStandbyFrequency frequency port = (true, port)
  /\ fst (XCOM760.PutActiveFrequency frequency port) = true
  /\ snd (XCOM760.PutActiveFrequency frequency port)
     = String.append port
         (String.append "$TXAF="
            (String.append
               (XCOM760.format_u (XCOM760.GetKiloHertz frequency / 1000))
               (String.append "."
                  (String.append
                     (XCOM760.format_03u
                        (XCOM760.GetKiloHertz frequency mod 1000))
                     XCOM760.CRLF))))
  /\ snd (XCOM760.PutActiveFrequency frequency port) <> port
  /\ XCOM760.PutActiveFrequency (XCOM760.mkRadioFrequency 123045)
       EmptyString
     = (true, String.append "$TXAF=123.045" XCOM760.CRLF)
  /\ XCOM760.PutStandbyFrequency (XCOM760.mkRadioFrequency 123045)
       EmptyString
     = (true, EmptyString).
Proof.
  split; [reflexivity|]. split; [reflexivity|]. split; [reflexivity|].
  split; [|split; reflexivity].
  unfold XCOM760.PutActiveFrequency. cbn [snd].
  apply XCOM760Facts.Port_Write_grows. simpl. lia.
Qed.

(** * Further properties *)

(** ** Bitwise operations on packed integers *)

Section PackedBits.

Variable w : Z.
Hypothesis Hw : 0 <= w.

Lemma to_integer_range x : 0 <= to_integer w x < 2 ^ w.
Proof using Hw.
  unfold to_integer. apply Z.mod_pos_bound. apply Z.pow_pos_nonneg; lia.
Qed.

Lemma to_integer_small x : 0 <= x < 2 ^ w -> to_integer w x = x.
Proof. intros Hx. unfold to_integer. apply Z.mod_small. exact Hx. Qed.

Lemma testbit_to_integer x i :
  0 <= i -> Z.testbit (to_integer w x) i = (i <? w) && Z.testbit x i.
Proof using Hw.
  intros Hi. unfold to_integer.
  destruct (Z.ltb_spec i w) as [Hlt | Hge]; simpl.
  - apply Z.mod_pow2_bits_low. lia.
  - apply Z.mod_pow2_bits_high. lia.
Qed.

Lemma all_ones_eq : 2 ^ w - 1 = Z.ones w.
Proof. rewrite Z.ones_equiv. lia. Qed.

Lemma testbit_all_ones i : 0 <= i -> Z.testbit (2 ^ w - 1) i = (i <? w).
Proof using Hw.
  intros Hi. rewrite all_ones_eq.
  destruct (Z.ltb_spec i w) as [Hlt | Hge].
  - apply Z.ones_spec_low. lia.
  - apply Z.ones_spec_high. lia.
Qed.

Lemma testbit_small_high x i :
  0 <= x < 2 ^ w -> w <= i -> Z.testbit x i = false.
Proof using Hw.
  intros Hx Hi. rewrite <- (to_integer_small x Hx).
  rewrite testbit_to_integer by lia.
  destruct (Z.ltb_spec i w); [lia | reflexivity].
Qed.

End PackedBits.

Ltac packed_bits w :=
  apply Z.bits_inj'; intros ?i ?Hi;
  unfold PixelBitNotOr, PixelBitNot, bit_or, bit_and;
  repeat first
    [ rewrite (testbit_to_integer w) by lia
    | rewrite Z.lor_spec
    | rewrite Z.land_spec
    | rewrite Z.lnot_spec by lia
    | rewrite (testbit_all_ones w) by lia ];
  repeat match goal with
         | |- context [Z.ltb ?a ?b] => destruct (Z.ltb_spec a b)
         | |- context [Z.testbit ?a ?b] => destruct (Z.testbit a b) eqn:?
         end;
  simpl; try reflexivity; try congruence.

(** X1: on packed integers of [w] bits, bit-or has 0 as identity and bit-and
    has the all-ones integer as identity; both are idempotent, commutative
    and associative, and their results stay within the [w] bits whatever
    the operands. *)
Theorem bit_or_bit_and_identities (w x y z : Z) :
  0 <= w -> 0 <= x < 2 ^ w ->
  bit_or w x 0 = x
  /\ bit_and w x (2 ^ w - 1) = x
  /\ bit_or w x x = x
  /\ bit_and w x x = x
  /\ bit_or w x y = bit_or w y x
  /\ bit_and w x y = bit_and w y x
  /\ bit_or w (bit_or w x y) z = bit_or w x (bit_or w y z)
  /\ bit_and w (bit_and w x y) z = bit_and w x (bit_and w y z)
  /\ 0 <= bit_or w y z < 2 ^ w
  /\ 0 <= bit_and w y z < 2 ^ w.
Proof.
  intros Hw Hx.
  split. { unfold bit_or. rewrite Z.lor_0_r. apply to_integer_small, Hx. }
  split. { unfold bit_and. rewrite all_ones_eq, Z.land_ones by lia.
           rewrite (Z.mod_small x) by exact Hx.
           apply to_integer_small, Hx. }
  split. { unfold bit_or. rewrite Z.lor_diag. apply to_integer_small, Hx. }
  split. { unfold bit_and. rewrite Z.land_diag. apply to_integer_small, Hx. }
  split. { unfold bit_or. rewrite Z.lor_comm. reflexivity. }
  split. { unfold bit_and. rewrite Z.land_comm. reflexivity. }
  split. { packed_bits w. }
  split. { packed_bits w. }
  split; apply to_integer_range; exact Hw.
Qed.

Lemma bit_or_bit_and_identities_witness :
  bit_or 32 4278255360 0 = 4278255360
  /\ bit_and 32 4278255360 (2 ^ 32 - 1) = 4278255360
  /\ bit_or 32 (bit_or 32 4278255360 (-3)) 5
     = bit_or 32 4278255360 (bit_or 32 (-3) 5).
Proof.
  destruct (bit_or_bit_and_identities 32 4278255360 (-3) 5
              ltac:(lia) ltac:(lia))
    as (H0 & H1 & _ & _ & _ & _ & Hassoc & _).
  split; [exact H0|]. split; [exact H1 | exact Hassoc].
Defined.

(** X2: on packed integers of [w] bits, bit-not-or of [a] and [b] is the
    bit-or of [a] with the bit-not of [b]; with an all-ones source it
    returns the destination, with a zero source it returns all ones; and
    bit-not turns a bit-or into the bit-and of the bit-nots and a bit-and
    into the bit-or of the bit-nots. *)
Theorem PixelBitNotOr_laws (w a b : Z) :
  0 <= w -> 0 <= a < 2 ^ w ->
  PixelBitNotOr w a b = bit_or w a (PixelBitNot w b)
  /\ PixelBitNotOr w a (2 ^ w - 1) = a
  /\ PixelBitNotOr w a 0 = 2 ^ w - 1
  /\ PixelBitNot w (bit_or w a b)
     = bit_and w (PixelBitNot w a) (PixelBitNot w b)
  /\ PixelBitNot w (bit_and w a b)
     = bit_or w (PixelBitNot w a) (PixelBitNot w b)
  /\ 0 <= PixelBitNotOr w a b < 2 ^ w.
Proof.
  intros Hw Ha.
  split. { packed_bits w. }
  split.
  { rewrite <- (to_integer_small w a Ha) at 2. packed_bits w. }
  split.
  { unfold PixelBitNotOr. change (Z.lnot 0) with (-1).
    rewrite Z.lor_m1_r. unfold to_integer.
    symmetry. apply (Z.mod_unique_pos _ _ (-1)); lia. }
  split. { packed_bits w. }
  split. { packed_bits w. }
  apply to_integer_range; exact Hw.
Qed.

Lemma PixelBitNotOr_laws_witness :
  PixelBitNotOr 8 200 15 = bit_or 8 200 (PixelBitNot 8 15)
  /\ PixelBitNotOr 8 200 (2 ^ 8 - 1) = 200
  /\ PixelBitNotOr 8 200 0 = 2 ^ 8 - 1.
Proof.
  destruct (PixelBitNotOr_laws 8 200 15 ltac:(lia) ltac:(lia))
    as (H0 & H1 & H2 & _).
  split; [exact H0|]. split; [exact H1 | exact H2].
Defined.

(** ** More on the alpha blend *)

Lemma shiftr8_monotone x y : x <= y -> Z.shiftr x 8 <= Z.shiftr y 8.
Proof.
  intros Hxy. rewrite !shiftr8_div. apply Z.div_le_mono; lia.
Qed.

(** X3: for channel values and alphas in [0,255], the alpha blend moves
    from the destination towards the source as alpha grows: it does not
    decrease in alpha when the source is at least the destination and does
    not increase when it is at most the destination; blending a value with
    itself returns it; a source below or equal to the destination is
    reached exactly at alpha 255, while a source above the destination is
    never reached. *)
Theorem AlphaBlend_monotone (alpha1 alpha2 a b : Z) :
  in_uint8 alpha1 -> in_uint8 alpha2 -> in_uint8 a -> in_uint8 b ->
  alpha1 <= alpha2 ->
  (a <= b -> AlphaBlend alpha1 a b <= AlphaBlend alpha2 a b)
  /\ (b <= a -> AlphaBlend alpha2 a b <= AlphaBlend alpha1 a b)
  /\ AlphaBlend alpha1 a a = a
  /\ (b <= a -> AlphaBlend 255 a b = b)
  /\ (a < b -> AlphaBlend alpha1 a b < b).
Proof.
  intros H1 H2 Ha Hb Hle.
  assert (H255 : in_uint8 255) by (unfold in_uint8; lia).
  rewrite !AlphaBlend_exact by assumption.
  unfold in_uint8 in *.
  split; [|split; [|split; [|split]]].
  - intros Hab. apply Z.add_le_mono_l, shiftr8_monotone. nia.
  - intros Hba. apply Z.add_le_mono_l, shiftr8_monotone. nia.
  - rewrite Z.sub_diag, Z.mul_0_l, Z.shiftr_0_l. lia.
  - intros Hba. rewrite shiftr8_div.
    assert (Hq : (b - a) * 255 / 256 = b - a); [|lia].
    symmetry. apply (Z.div_unique _ _ _ (a - b)); lia.
  - intros Hab. rewrite shiftr8_div.
    assert (Hq : (b - a) * alpha1 / 256 < b - a); [|lia].
    apply Z.div_lt_upper_bound; nia.
Qed.

Lemma AlphaBlend_monotone_witness :
  AlphaBlend 100 40 200 <= AlphaBlend 180 40 200
  /\ AlphaBlend 100 40 40 = 40
  /\ AlphaBlend 100 40 200 < 200.
Proof.
  destruct (AlphaBlend_monotone 100 180 40 200
              ltac:(unfold in_uint8; lia) ltac:(unfold in_uint8; lia)
              ltac:(unfold in_uint8; lia) ltac:(unfold in_uint8; lia)
              ltac:(lia))
    as (Hup & _ & Hsame & _ & Hbelow).
  split; [apply Hup; lia|]. split; [exact Hsame | apply Hbelow; lia].
Defined.

(** ** Blends of whole pixels *)

Section ChannelBlends.

Context {Mem C : Type}.
Variable PT : PixelTraits Mem C.
Variable channels : C -> list Z.
Hypothesis contract : ChannelContract PT channels.

Lemma blend_channels (f : Z -> Z -> Z) (s : Z) (a b : C) :
  in_uint8 s ->
  (forall x y, in_uint8 x -> in_uint8 y ->
     to_uint8 (f x y) = x + Z.shiftr ((y - x) * s) 8) ->
  Forall in_uint8 (channels a) ->
  Forall in_uint8 (channels b) ->
  channels (TransformChannels2 PT a b f)
  = zip_with (fun x y => x + Z.shiftr ((y - x) * s) 8)
      (channels a) (channels b).
Proof using contract.
  intros Hs Hf Ha Hb.
  rewrite (TransformChannels2_spec PT channels contract).
  apply (zip_with_ext_Forall in_uint8); assumption.
Qed.

Lemma blend_zero_coverage (l1 l2 : list Z) :
  length l1 = length l2 ->
  zip_with (fun x y => x + Z.shiftr ((y - x) * 0) 8) l1 l2 = l1.
Proof.
  revert l2. induction l1 as [|x l1 IH]; intros [|y l2] Hlen;
    try discriminate; [reflexivity|].
  simpl. rewrite Z.mul_0_r, Z.shiftr_0_l, Z.add_0_r.
  f_equal. apply IH. simpl in Hlen. lia.
Qed.

Lemma blend_between (s : Z) (l1 l2 : list Z) :
  in_uint8 s -> Forall in_uint8 l1 -> Forall in_uint8 l2 ->
  forall i x a b,
    zip_with (fun x y => x + Z.shiftr ((y - x) * s) 8) l1 l2 !! i = Some x ->
    l1 !! i = Some a -> l2 !! i = Some b ->
    Z.min a b <= x <= Z.max a b.
Proof.
  intros Hs H1 H2 i x a b Hx Ha Hb.
  rewrite lookup_zip_with, Ha, Hb in Hx. simpl in Hx.
  injection Hx as <-.
  assert (Hina : in_uint8 a).
  { eapply Forall_lookup_1; [exact H1 | exact Ha]. }
  assert (Hinb : in_uint8 b).
  { eapply Forall_lookup_1; [exact H2 | exact Hb]. }
  rewrite <- (blend_int_exact s a b) by assumption.
  apply blend_int_between; assumption.
Qed.

Lemma alpha_call_channel (alpha x y : Z) :
  in_uint8 alpha -> in_uint8 x -> in_uint8 y ->
  to_uint8 (PixelAlphaOperation_call (PixelAlphaOperation_new alpha) x y)
  = x + Z.shiftr ((y - x) * alpha) 8.
Proof.
  intros Halpha Hx Hy.
  change (PixelAlphaOperation_call (PixelAlphaOperation_new alpha) x y)
    with (AlphaBlend alpha x y).
  rewrite AlphaBlend_exact by assumption.
  rewrite <- (blend_int_exact alpha x y) by assumption.
  apply to_uint8_id, blend_int_channel; assumption.
Qed.

Lemma colored_alpha_channel (s x y : Z) :
  in_uint8 s -> in_uint8 x -> in_uint8 y ->
  to_uint8 (blend_int (to_int s) x y) = x + Z.shiftr ((y - x) * s) 8.
Proof. apply opaque_alpha_channel. Qed.

End ChannelBlends.

(** X4: the alpha blend of whole pixels reads the destination pixel and
    writes it back blended: over a descriptor that honours the per-channel
    contract, each channel of the pixel written is
    [a + (((b - a) * alpha) >> 8)] for the channel [a] of the pixel read at
    the destination and the channel [b] of the source colour, so it lies
    between the two; with alpha 0 the channels written are those read. *)
Theorem AlphaPixelOperations_channels {Mem C} (PT : PixelTraits Mem C)
    (channels : C -> list Z) (_alpha : Z) (c : C)
    (p : pointer_type PT) (m : Mem) :
  ChannelContract PT channels ->
  in_uint8 _alpha ->
  Forall in_uint8 (channels (ReadPixel PT p m)) ->
  Forall in_uint8 (channels c) ->
  length (channels (ReadPixel PT p m)) = length (channels c) ->
  exists v : C,
    AlphaPixelOperations PT (PixelAlphaOperation_new _alpha) p c m
    = (tt, WritePixel PT p v m,
       [AccRead p (ReadPixel PT p m); AccWrite p v])
    /\ channels v
       = zip_with (fun a b => a + Z.shiftr ((b - a) * _alpha) 8)
           (channels (ReadPixel PT p m)) (channels c)
    /\ (forall i x a b,
          channels v !! i = Some x ->
          channels (ReadPixel PT p m) !! i = Some a ->
          channels c !! i = Some b ->
          Z.min a b <= x <= Z.max a b)
    /\ (_alpha = 0 -> channels v = channels (ReadPixel PT p m)).
Proof.
  intros contract Halpha Hd Hc Hlen.
  exists (PixelPerChannelAdapter2 PT
            (PixelAlphaOperation_call (PixelAlphaOperation_new _alpha))
            (ReadPixel PT p m) c).
  assert (Hch :
    channels (PixelPerChannelAdapter2 PT
                (PixelAlphaOperation_call (PixelAlphaOperation_new _alpha))
                (ReadPixel PT p m) c)
    = zip_with (fun a b => a + Z.shiftr ((b - a) * _alpha) 8)
        (channels (ReadPixel PT p m)) (channels c)).
  { unfold PixelPerChannelAdapter2.
    apply (blend_channels PT channels contract _ _alpha); try assumption.
    intros x y Hx Hy. apply alpha_call_channel; assumption. }
  split; [reflexivity|]. split; [exact Hch|]. split.
  - intros i x a b Hx Ha Hb. rewrite Hch in Hx.
    exact (blend_between _alpha _ _ Halpha Hd Hc i x a b Hx Ha Hb).
  - intros ->. rewrite Hch. apply blend_zero_coverage. exact Hlen.
Qed.

(** X5: the coloured-alpha operation blends the pixel read at the
    destination towards its fixed colour by the coverage sample: over a
    descriptor that honours the per-channel contract, each channel of the
    pixel written is [a + (((color - a) * s) >> 8)] for the channel [a]
    read and the channel [color] of the fixed colour, so it lies between
    the two; with coverage 0 the channels written are those read. *)
Theorem ColoredAlphaPixelOperations_channels {Mem C}
    (PT : PixelTraits Mem C) (channels : C -> list Z)
    (ink : C) (s : Luminosity8) (p : pointer_type PT) (m : Mem) :
  ChannelContract PT channels ->
  in_uint8 (GetLuminosity s) ->
  Forall in_uint8 (channels (ReadPixel PT p m)) ->
  Forall in_uint8 (channels ink) ->
  length (channels (ReadPixel PT p m)) = length (channels ink) ->
  exists v : C,
    ColoredAlphaPixelOperations PT (mkPixelColoredAlpha ink) p s m
    = (tt, WritePixel PT p v m,
       [AccRead p (ReadPixel PT p m); AccWrite p v])
    /\ channels v
       = zip_with (fun a b => a + Z.shiftr ((b - a) * GetLuminosity s) 8)
           (channels (ReadPixel PT p m)) (channels ink)
    /\ (forall i x a b,
          channels v !! i = Some x ->
          channels (ReadPixel PT p m) !! i = Some a ->
          channels ink !! i = Some b ->
          Z.min a b <= x <= Z.max a b)
    /\ (GetLuminosity s = 0 -> channels v = channels (ReadPixel PT p m)).
Proof.
  intros contract Hs Hd Hc Hlen.
  exists (PixelColoredAlpha_call PT (mkPixelColoredAlpha ink)
            (ReadPixel PT p m) s).
  assert (Hch :
    channels (PixelColoredAlpha_call PT (mkPixelColoredAlpha ink)
                (ReadPixel PT p m) s)
    = zip_with (fun a b => a + Z.shiftr ((b - a) * GetLuminosity s) 8)
        (channels (ReadPixel PT p m)) (channels ink)).
  { unfold PixelColoredAlpha_call. simpl.
    apply (blend_channels PT channels contract _ (GetLuminosity s));
      try assumption.
    intros x y Hx Hy. apply colored_alpha_channel; assumption. }
  split; [reflexivity|]. split; [exact Hch|]. split.
  - intros i x a b Hx Ha Hb. rewrite Hch in Hx.
    exact (blend_between (GetLuminosity s) _ _ Hs Hd Hc i x a b Hx Ha Hb).
  - intros H0. rewrite Hch, H0. apply blend_zero_coverage. exact Hlen.
Qed.

Lemma Forall_in_uint8_one (x : Z) : in_uint8 x -> Forall in_uint8 [x].
Proof.
  intros Hx. apply Forall_cons.
  split; [exact Hx | apply Forall_nil; exact I].
Qed.

Lemma AlphaPixelOperations_channels_witness :
  exists v : Luminosity8,
    AlphaPixelOperations Greyscale.G (PixelAlphaOperation_new 128)
      1%nat (mkLuminosity8 100) (Greyscale.row [7; 0; 9])
    = (tt, WritePixel Greyscale.G 1%nat v (Greyscale.row [7; 0; 9]),
       [AccRead (PT := Greyscale.G) 1%nat (mkLuminosity8 0);
        AccWrite (PT := Greyscale.G) 1%nat v])
    /\ Greyscale.channels v = [50].
Proof.
  destruct (AlphaPixelOperations_channels Greyscale.G Greyscale.channels
              128 (mkLuminosity8 100) 1%nat (Greyscale.row [7; 0; 9])
              GreyscaleFacts.Greyscale_channels
              ltac:(unfold in_uint8; lia)
              (Forall_in_uint8_one 0 ltac:(unfold in_uint8; lia))
              (Forall_in_uint8_one 100 ltac:(unfold in_uint8; lia))
              eq_refl)
    as (v & Hrun & Hch & _).
  exists v. split; [exact Hrun | exact Hch].
Defined.

Lemma ColoredAlphaPixelOperations_channels_witness :
  exists v : Luminosity8,
    ColoredAlphaPixelOperations Greyscale.G
      (mkPixelColoredAlpha (mkLuminosity8 20))
      0%nat (mkLuminosity8 64) (Greyscale.row [220; 1])
    = (tt, WritePixel Greyscale.G 0%nat v (Greyscale.row [220; 1]),
       [AccRead (PT := Greyscale.G) 0%nat (mkLuminosity8 220);
        AccWrite (PT := Greyscale.G) 0%nat v])
    /\ Greyscale.channels v = [170].
Proof.
  destruct (ColoredAlphaPixelOperations_channels Greyscale.G
              Greyscale.channels (mkLuminosity8 20) (mkLuminosity8 64)
              0%nat (Greyscale.row [220; 1])
              GreyscaleFacts.Greyscale_channels
              ltac:(unfold in_uint8; simpl; lia)
              (Forall_in_uint8_one 220 ltac:(unfold in_uint8; lia))
              (Forall_in_uint8_one 20 ltac:(unfold in_uint8; lia))
              eq_refl)
    as (v & Hrun & Hch & _).
  exists v. split; [exact Hrun | exact Hch].
Defined.

(** ** Bitwise operations on whole pixels *)

Lemma Greyscale_integer :
  IntegerContract Greyscale.G GetLuminosity.
Proof. split; reflexivity. Qed.

(** X6: over a descriptor that honours the per-integer contract, the
    integer adapter carries the bitwise operations to whole pixels: the
    packed integer of an inverted pixel is the all-ones integer minus the
    packed integer of the pixel, inverting twice gives a pixel with the
    packed integer of the first, and or-ing, and-ing or not-or-ing a
    destination with a source whose packed integer is the identity of the
    operation gives a pixel with the packed integer of the destination. *)
Theorem PixelIntegerAdapter_packed {Mem C} (PT : PixelTraits Mem C)
    (packed : C -> Z) (a b : C) :
  IntegerContract PT packed ->
  0 <= integer_bits PT ->
  0 <= packed a < 2 ^ integer_bits PT ->
  packed (PixelIntegerAdapter PT (PixelBitNot (integer_bits PT)) a)
  = 2 ^ integer_bits PT - 1 - packed a
  /\ packed (PixelIntegerAdapter PT (PixelBitNot (integer_bits PT))
               (PixelIntegerAdapter PT (PixelBitNot (integer_bits PT)) a))
     = packed a
  /\ (packed b = 0 ->
      packed (PixelIntegerAdapter2 PT (bit_or (integer_bits PT)) a b)
      = packed a)
  /\ (packed b = 2 ^ integer_bits PT - 1 ->
      packed (PixelIntegerAdapter2 PT (bit_and (integer_bits PT)) a b)
      = packed a)
  /\ (packed b = 2 ^ integer_bits PT - 1 ->
      packed (PixelIntegerAdapter2 PT (PixelBitNotOr (integer_bits PT)) a b)
      = packed a).
Proof.
  intros contract Hw Ha.
  unfold PixelIntegerAdapter, PixelIntegerAdapter2.
  rewrite !(TransformInteger_spec PT packed contract).
  rewrite !(TransformInteger2_spec PT packed contract).
  set (w := integer_bits PT) in *.
  assert (Hnot : to_integer w (PixelBitNot w (packed a))
                 = 2 ^ w - 1 - packed a).
  { unfold PixelBitNot. rewrite (to_integer_lnot w (packed a)) by assumption.
    apply to_integer_small. lia. }
  split; [exact Hnot|]. split.
  { rewrite Hnot. unfold PixelBitNot.
    rewrite (to_integer_lnot w) by lia.
    rewrite to_integer_small by lia. lia. }
  split.
  { intros ->. unfold bit_or. rewrite Z.lor_0_r.
    rewrite !to_integer_small; [reflexivity | exact Ha |].
    rewrite to_integer_small by exact Ha. exact Ha. }
  split.
  { intros ->. unfold bit_and. rewrite all_ones_eq, Z.land_ones by lia.
    rewrite (Z.mod_small (packed a)) by exact Ha.
    rewrite !to_integer_small; [reflexivity | exact Ha |].
    rewrite to_integer_small by exact Ha. exact Ha. }
  intros ->.
  transitivity (to_integer w (packed a));
    [|apply to_integer_small; exact Ha].
  packed_bits w.
Qed.

Lemma PixelIntegerAdapter_packed_witness :
  GetLuminosity
    (PixelIntegerAdapter Greyscale.G (PixelBitNot 8) (mkLuminosity8 10))
  = 245
  /\ GetLuminosity
       (PixelIntegerAdapter Greyscale.G (PixelBitNot 8)
          (PixelIntegerAdapter Greyscale.G (PixelBitNot 8)
             (mkLuminosity8 10)))
     = 10.
Proof.
  destruct (PixelIntegerAdapter_packed Greyscale.G GetLuminosity
              (mkLuminosity8 10) (mkLuminosity8 0) Greyscale_integer
              ltac:(simpl; lia) ltac:(simpl; lia))
    as (Hnot & Htwice & _).
  split; [exact Hnot | exact Htwice].
Defined.

(** ** What a span holds after a fill or a copy *)

Section PixelwiseStrategies.

Context {Mem C : Type}.
Variable PT : PixelTraits Mem C.

Lemma UnaryWritePixel_pixelwise {S} (op : S -> C) :
  pixelwise PT (UnaryWritePixel PT op) (fun _ c => Some (op c)).
Proof. intros p c m. reflexivity. Qed.

Lemma BinaryWritePixel_pixelwise {S} (op : C -> S -> C) :
  pixelwise PT (BinaryWritePixel PT op) (fun d c => Some (op d c)).
Proof. intros p c m. reflexivity. Qed.

Lemma ConditionalWritePixel_pixelwise (check : C -> bool) :
  pixelwise PT (ConditionalWritePixel PT check)
    (fun _ c => if check c then Some c else None).
Proof.
  intros p c m. unfold ConditionalWritePixel.
  destruct (check c); reflexivity.
Qed.

Lemma TransparentInvert_pixelwise (k : C) :
  pixelwise PT (TransparentInvertPixelOperations PT k)
    (fun _ c =>
       if color_ne PT c k
       then Some (PixelIntegerAdapter PT (PixelBitNot (integer_bits PT)) c)
       else None).
Proof.
  intros p c m. unfold TransparentInvertPixelOperations.
  destruct (color_ne PT c k); reflexivity.
Qed.

End PixelwiseStrategies.

Section SpanLoop.

Context {Mem C S E : Type}.
Variable PT : PixelTraits Mem C.
Variable g : C -> S -> option C.
Variable p : pointer_type PT.
Variable n : nat.
Variable body : nat -> Eff Mem E unit.
Variable srcval : nat -> Mem -> S.

Hypothesis contract : MemoryContract PT.
Hypothesis Hbody :
  forall i m,
    memory (body i m)
    = match g (ReadPixel PT (Next PT p i) m) (srcval i m) with
      | Some v => WritePixel PT (Next PT p i) v m
      | None => m
      end.
Hypothesis Hdistinct : span_distinct PT p n.
Hypothesis Hstable :
  forall i j v m, (j < i)%nat -> (i < n)%nat ->
    srcval i (WritePixel PT (Next PT p j) v m) = srcval i m.

Lemma span_progress_start m0 :
  (forall i, (i < n)%nat -> valid_location PT (Next PT p i) m0) ->
  span_progress PT g p n srcval m0 0 m0.
Proof.
  intros Hvalid. unfold span_progress.
  split; [intros i Hi; lia|].
  split; [reflexivity|]. split; [reflexivity|].
  split; [exact Hvalid | reflexivity].
Qed.

Lemma span_progress_step m0 k m :
  (k < n)%nat ->
  span_progress PT g p n srcval m0 k m ->
  span_progress PT g p n srcval m0 (Datatypes.S k) (memory (body k m)).
Proof using contract Hbody Hdistinct Hstable.
  intros Hk (Hdone & Htodo & Hsrc & Hvalid & Hframe).
  rewrite Hbody.
  rewrite (Htodo k) by lia. rewrite (Hsrc k) by lia.
  unfold span_progress.
  destruct (g (ReadPixel PT (Next PT p k) m0) (srcval k m0)) as [v|] eqn:Hg.
  - split; [|split; [|split; [|split]]].
    + intros i Hi Hin. destruct (Nat.eq_dec i k) as [-> | Hne].
      * rewrite (Hvalid k Hk v). unfold committed. rewrite Hg. reflexivity.
      * rewrite (ReadPixel_other PT contract)
          by (apply Hdistinct; lia).
        apply Hdone; lia.
    + intros i Hi.
      rewrite (ReadPixel_other PT contract) by (apply Hdistinct; lia).
      apply Htodo. lia.
    + intros i Hi. rewrite Hstable by lia. apply Hsrc. lia.
    + intros i Hi. apply (valid_location_written PT contract), Hvalid, Hi.
    + intros q Hq.
      rewrite (ReadPixel_other PT contract)
        by (intros Heq; apply (Hq k Hk); symmetry; exact Heq).
      apply Hframe, Hq.
  - split; [|split; [|split; [|split]]].
    + intros i Hi Hin. destruct (Nat.eq_dec i k) as [-> | Hne].
      * rewrite (Htodo k) by lia. unfold committed. rewrite Hg. reflexivity.
      * apply Hdone; lia.
    + intros i Hi. apply Htodo. lia.
    + intros i Hi. apply Hsrc. lia.
    + exact Hvalid.
    + exact Hframe.
Qed.

Lemma span_progress_loop m0 count :
  forall start m,
    (start + count = n)%nat ->
    span_progress PT g p n srcval m0 start m ->
    span_progress PT g p n srcval m0 n
      (memory (for_range start count body m)).
Proof using contract Hbody Hdistinct Hstable.
  induction count as [|count IH]; intros start m Hsum Hprog.
  - assert (Hstart : start = n) by lia. subst start. exact Hprog.
  - rewrite memory_for_range_S. apply IH; [lia|].
    apply span_progress_step; [lia | exact Hprog].
Qed.

Lemma span_loop_result m0 :
  (forall i, (i < n)%nat -> valid_location PT (Next PT p i) m0) ->
  (forall i, (i < n)%nat ->
     ReadPixel PT (Next PT p i) (memory (for_range 0 n body m0))
     = committed g (ReadPixel PT (Next PT p i) m0) (srcval i m0))
  /\ (forall q, (forall i, (i < n)%nat -> q <> Next PT p i) ->
        ReadPixel PT q (memory (for_range 0 n body m0))
        = ReadPixel PT q m0).
Proof using contract Hbody Hdistinct Hstable.
  intros Hvalid.
  destruct (span_progress_loop m0 n 0 m0 eq_refl
              (span_progress_start m0 Hvalid))
    as (Hdone & _ & _ & _ & Hframe).
  split; [|exact Hframe].
  intros i Hi. apply Hdone; exact Hi.
Qed.

End SpanLoop.

(** X7: over a descriptor whose writes leave other locations alone, for
    the direct-write, blend-write, conditional-write and transparent-invert
    strategies alike, [FillPixels] on a span of pairwise different valid
    locations leaves at each position of the span what the strategy commits
    from the pixel that position held and the fill colour, and leaves
    every pixel outside the span as it was. *)
Theorem FillPixels_span {Mem C S} (PT : PixelTraits Mem C)
    (W : WritePixelOperation S PT) (g : C -> S -> option C)
    (p : pointer_type PT) (n : nat) (c : S) (m : Mem) :
  MemoryContract PT ->
  pixelwise PT W g ->
  span_distinct PT p n ->
  (forall i, (i < n)%nat -> valid_location PT (Next PT p i) m) ->
  (forall i, (i < n)%nat ->
     ReadPixel PT (Next PT p i) (memory (FillPixels PT W p n c m))
     = committed g (ReadPixel PT (Next PT p i) m) c)
  /\ (forall q, (forall i, (i < n)%nat -> q <> Next PT p i) ->
        ReadPixel PT q (memory (FillPixels PT W p n c m))
        = ReadPixel PT q m).
Proof.
  intros contract HW Hdistinct Hvalid.
  unfold FillPixels, ForHorizontal, for_upto, PerPixelOperations_WritePixel.
  apply (span_loop_result PT g p n
           (fun i => W (Next PT p i) c) (fun _ _ => c) contract).
  - intros i m'. apply HW.
  - exact Hdistinct.
  - reflexivity.
  - exact Hvalid.
Qed.

(** X8: under the same conditions, when moreover no source pixel of the
    span is changed by a write at an earlier position of the destination
    (the two spans are apart, or the destination starts at or before the
    source), [CopyPixels] leaves at position [i] of the destination what
    the strategy commits from the pixel that position held and the pixel the
    source held at position [i] before the copy, and leaves every pixel
    outside the destination span as it was. *)
Theorem CopyPixels_pixels {Mem C S} (PT : PixelTraits Mem C)
    (SPT : PixelTraits Mem S)
    (W : WritePixelOperation S PT) (g : C -> S -> option C)
    (p : pointer_type PT) (src : pointer_type SPT) (n : nat) (m : Mem) :
  MemoryContract PT ->
  pixelwise PT W g ->
  span_distinct PT p n ->
  (forall i, (i < n)%nat -> valid_location PT (Next PT p i) m) ->
  (forall i j v m', (j < i)%nat -> (i < n)%nat ->
     ReadPixel SPT (Next SPT src i) (WritePixel PT (Next PT p j) v m')
     = ReadPixel SPT (Next SPT src i) m') ->
  (forall i, (i < n)%nat ->
     ReadPixel PT (Next PT p i) (memory (CopyPixels PT SPT W p src n m))
     = committed g (ReadPixel PT (Next PT p i) m)
         (ReadPixel SPT (Next SPT src i) m))
  /\ (forall q, (forall i, (i < n)%nat -> q <> Next PT p i) ->
        ReadPixel PT q (memory (CopyPixels PT SPT W p src n m))
        = ReadPixel PT q m).
Proof.
  intros contract HW Hdistinct Hvalid Hsource.
  rewrite CopyPixels_unfold.
  apply (span_loop_result PT g p n _
           (fun i m' => ReadPixel SPT (Next SPT src i) m') contract).
  - intros i m'. rewrite memory_bind, memory_lift.
    unfold PerPixelOperations_WritePixel. apply HW.
  - exact Hdistinct.
  - exact Hsource.
  - exact Hvalid.
Qed.

(** ** The greyscale descriptor honours the memory contract *)

Module GreyscaleSpanFacts.

Import Greyscale.

Lemma valid_location_length (q : nat) (m : Mem) :
  valid_location G q m -> (q < length m)%nat.
Proof.
  intros Hvalid. destruct (Nat.lt_ge_cases q (length m)) as [Hlt | Hge];
    [exact Hlt|].
  specialize (Hvalid (mkLuminosity8 1)). simpl in Hvalid.
  rewrite list_insert_ge in Hvalid by exact Hge.
  rewrite lookup_ge_None_2 in Hvalid by exact Hge.
  discriminate.
Qed.

Lemma Greyscale_memory : MemoryContract G.
Proof.
  split.
  - intros p q c m Hne. simpl.
    rewrite list_lookup_insert_ne by exact Hne. reflexivity.
  - intros p q c m Hvalid.
    apply GreyscaleFacts.Greyscale_valid_location.
    simpl. rewrite length_insert. apply valid_location_length, Hvalid.
Qed.

Lemma Greyscale_span_distinct (p n : nat) : span_distinct G p n.
Proof. intros i j _ _ Hne. simpl. lia. Qed.

Lemma Greyscale_source_stable (p src : nat) :
  (p <= src)%nat ->
  forall (i j : nat) (v : Luminosity8) (m : Mem),
    (j < i)%nat ->
    ReadPixel G (Next G src i) (WritePixel G (Next G p j) v m)
    = ReadPixel G (Next G src i) m.
Proof.
  intros Hle i j v m Hji. simpl.
  rewrite list_lookup_insert_ne by lia. reflexivity.
Qed.

End GreyscaleSpanFacts.

Lemma FillPixels_span_witness :
  ReadPixel Greyscale.G 2%nat
    (memory (FillPixels Greyscale.G
               (AlphaPixelOperations Greyscale.G
                  (PixelAlphaOperation_new 128))
               1%nat 2 (mkLuminosity8 100)
               (Greyscale.row [9; 0; 200; 9])))
  = mkLuminosity8 150
  /\ ReadPixel Greyscale.G 3%nat
       (memory (FillPixels Greyscale.G
                  (AlphaPixelOperations Greyscale.G
                     (PixelAlphaOperation_new 128))
                  1%nat 2 (mkLuminosity8 100)
                  (Greyscale.row [9; 0; 200; 9])))
     = mkLuminosity8 9.
Proof.
  destruct (FillPixels_span Greyscale.G
              (AlphaPixelOperations Greyscale.G
                 (PixelAlphaOperation_new 128))
              _ 1%nat 2 (mkLuminosity8 100)
              (Greyscale.row [9; 0; 200; 9])
              GreyscaleSpanFacts.Greyscale_memory
              (BinaryWritePixel_pixelwise Greyscale.G _)
              (GreyscaleSpanFacts.Greyscale_span_distinct 1 2)
              (fun i Hi =>
                 GreyscaleFacts.Greyscale_valid_location (1 + i)
                   (Greyscale.row [9; 0; 200; 9])
                   ltac:(simpl; lia)))
    as (Hin & Hout).
  split.
  - exact (Hin 1%nat ltac:(lia)).
  - apply (Hout 3%nat). intros i Hi. simpl. lia.
Defined.

Lemma CopyPixels_pixels_witness :
  ReadPixel Greyscale.G 2%nat
    (memory (CopyPixels Greyscale.G Greyscale.G
               (UnaryWritePixel Greyscale.G (fun c => c))
               0%nat 1%nat 4
               (Greyscale.row [1; 2; 3; 4; 5])))
  = mkLuminosity8 4
  /\ ReadPixel Greyscale.G 4%nat
       (memory (CopyPixels Greyscale.G Greyscale.G
                  (UnaryWritePixel Greyscale.G (fun c => c))
                  0%nat 1%nat 4
                  (Greyscale.row [1; 2; 3; 4; 5])))
     = mkLuminosity8 5.
Proof.
  destruct (CopyPixels_pixels Greyscale.G Greyscale.G
              (UnaryWritePixel Greyscale.G (fun c => c))
              _ 0%nat 1%nat 4
              (Greyscale.row [1; 2; 3; 4; 5])
              GreyscaleSpanFacts.Greyscale_memory
              (UnaryWritePixel_pixelwise Greyscale.G _)
              (GreyscaleSpanFacts.Greyscale_span_distinct 0 4)
              (fun i Hi =>
                 GreyscaleFacts.Greyscale_valid_location (0 + i)
                   (Greyscale.row [1; 2; 3; 4; 5])
                   ltac:(simpl; lia))
              (fun i j v m' Hji _ =>
                 GreyscaleSpanFacts.Greyscale_source_stable 0 1
                   ltac:(lia) i j v m' Hji))
    as (Hin & Hout).
  split.
  - exact (Hin 2%nat ltac:(lia)).
  - apply (Hout 4%nat). intros i Hi. simpl. lia.
Defined.

(** ** Accesses stay within the spans *)

Section LocalStrategies.

Context {Mem C : Type}.
Variable PT : PixelTraits Mem C.

Lemma UnaryWritePixel_local {S} (op : S -> C) :
  local_strategy PT (UnaryWritePixel PT op).
Proof. intros p c m. repeat constructor. Qed.

Lemma BinaryWritePixel_local {S} (op : C -> S -> C) :
  local_strategy PT (BinaryWritePixel PT op).
Proof. intros p c m. repeat constructor. Qed.

Lemma ConditionalWritePixel_local (check : C -> bool) :
  local_strategy PT (ConditionalWritePixel PT check).
Proof.
  intros p c m. unfold ConditionalWritePixel.
  destruct (check c); repeat constructor.
Qed.

Lemma TransparentInvert_local (k : C) :
  local_strategy PT (TransparentInvertPixelOperations PT k).
Proof.
  intros p c m. unfold TransparentInvertPixelOperations.
  destruct (color_ne PT c k); repeat constructor.
Qed.

End LocalStrategies.

Lemma for_range_Forall {Mem E} (Q : E -> Prop)
    (body : nat -> Eff Mem E unit) count :
  forall start m,
    (forall i m', (start <= i < start + count)%nat ->
       Forall Q (trace (body i m'))) ->
    Forall Q (trace (for_range start count body m)).
Proof.
  induction count as [|count IH]; intros start m Hbody.
  - apply Forall_nil. exact I.
  - rewrite trace_for_range_S. apply Forall_app. split.
    + apply Hbody. lia.
    + apply IH. intros i m' Hi. apply Hbody. lia.
Qed.

(** X9: with a write strategy that accesses only the location it is given
    (direct write, blend write, conditional write and transparent invert
    all do), every access [FillPixels] makes is at one of the [n] locations
    of its span, and every event of [CopyPixels] is a read of one of the
    [n] source locations or an access to one of the [n] destination
    locations. *)
Theorem span_accesses_in_span {Mem C S} (PT : PixelTraits Mem C)
    (SPT : PixelTraits Mem S) (W : WritePixelOperation S PT)
    (p : pointer_type PT) (src : pointer_type SPT) (n : nat) (c : S)
    (m : Mem) :
  local_strategy PT W ->
  Forall (fun a => in_span PT p n (access_location a))
    (trace (FillPixels PT W p n c m))
  /\ Forall (copy_event_in_spans PT SPT p src n)
       (trace (CopyPixels PT SPT W p src n m)).
Proof.
  intros Hlocal. split.
  - unfold FillPixels, ForHorizontal, for_upto,
      PerPixelOperations_WritePixel.
    apply for_range_Forall. intros i m' Hi.
    eapply Forall_impl; [apply Hlocal|].
    intros a Ha. exists i. split; [lia | exact Ha].
  - rewrite CopyPixels_unfold.
    apply for_range_Forall. intros i m' Hi.
    rewrite copy_body_trace. apply Forall_cons. split.
    + exists i. split; [lia | reflexivity].
    + apply Forall_fmap.
      eapply Forall_impl; [apply Hlocal|].
      intros a Ha. exists i. split; [lia | exact Ha].
Qed.

Lemma span_accesses_in_span_witness :
  Forall (fun a => in_span Greyscale.G 1%nat 2 (access_location a))
    (trace (FillPixels Greyscale.G
              (BitOrPixelOperations Greyscale.G)
              1%nat 2 (mkLuminosity8 3) (Greyscale.row [8; 16; 32; 64]))).
Proof.
  exact (proj1 (span_accesses_in_span Greyscale.G Greyscale.G
                  (BitOrPixelOperations Greyscale.G)
                  1%nat 0%nat 2 (mkLuminosity8 3)
                  (Greyscale.row [8; 16; 32; 64])
                  (BinaryWritePixel_local Greyscale.G _))).
Defined.

(** ** Spans compose *)

Section EffCompose.

Context {Mem E : Type}.

Lemma bind_ret_l {A B} (a : A) (k : A -> Eff Mem E B) m :
  bind (ret a) k m = k a m.
Proof.
  unfold bind, ret. destruct (k a m) as [[b m2] t2]. reflexivity.
Qed.

Lemma bind_assoc {A B D} (x : Eff Mem E A) (f : A -> Eff Mem E B)
    (h : B -> Eff Mem E D) m :
  bind (bind x f) h m = bind x (fun a => bind (f a) h) m.
Proof.
  unfold bind. destruct (x m) as [[a m1] t1].
  destruct (f a m1) as [[b m2] t2].
  destruct (h b m2) as [[d m3] t3].
  rewrite app_assoc. reflexivity.
Qed.

Lemma bind_ext {A B} (x : Eff Mem E A) (k k' : A -> Eff Mem E B) m :
  (forall a m', k a m' = k' a m') -> bind x k m = bind x k' m.
Proof.
  intros Hk. unfold bind. destruct (x m) as [[a m1] t1].
  rewrite Hk. reflexivity.
Qed.

Lemma for_range_split (body : nat -> Eff Mem E unit) a b :
  forall start m,
    for_range start (a + b) body m
    = bind (for_range start a body)
        (fun _ => for_range (start + a) b body) m.
Proof.
  induction a as [|a IH]; intros start m.
  - simpl. rewrite bind_ret_l, Nat.add_0_r. reflexivity.
  - cbn [Nat.add for_range]. rewrite bind_assoc.
    apply bind_ext. intros _ m'. rewrite IH.
    replace (Datatypes.S start + a)%nat with (start + Datatypes.S a)%nat
      by lia.
    reflexivity.
Qed.

Lemma for_range_shift (body body' : nat -> Eff Mem E unit) count :
  forall start start' m,
    (forall i m', (i < count)%nat ->
       body (start + i)%nat m' = body' (start' + i)%nat m') ->
    for_range start count body m = for_range start' count body' m.
Proof.
  induction count as [|count IH]; intros start start' m Hbody;
    [reflexivity|].
  cbn [for_range]. unfold bind.
  pose proof (Hbody 0%nat m ltac:(lia)) as H0.
  rewrite !Nat.add_0_r in H0. rewrite H0.
  destruct (body' start' m) as [[u m1] t1].
  rewrite (IH (Datatypes.S start) (Datatypes.S start') m1); [reflexivity|].
  intros i m' Hi.
  replace (Datatypes.S start + i)%nat with (start + Datatypes.S i)%nat
    by lia.
  replace (Datatypes.S start' + i)%nat with (start' + Datatypes.S i)%nat
    by lia.
  apply Hbody. lia.
Qed.

End EffCompose.

(** X10: a span can be processed in two pieces: when advancing by [a]
    pixels and then by [i] is advancing by [a + i], [FillPixels] over
    [a + b] pixels is [FillPixels] over the first [a] followed by
    [FillPixels] over the [b] pixels from [Next(p, a)], and [CopyPixels]
    over [a + b] pixels is [CopyPixels] over the first [a] followed by
    [CopyPixels] over the [b] pixels from [Next(p, a)] and [Next(src, a)],
    with the same final memory and the same accesses in the same order. *)
Theorem spans_compose {Mem C S} (PT : PixelTraits Mem C)
    (SPT : PixelTraits Mem S) (W : WritePixelOperation S PT)
    (p : pointer_type PT) (src : pointer_type SPT) (a b : nat) (c : S)
    (m : Mem) :
  (forall i, Next PT (Next PT p a) i = Next PT p (a + i)) ->
  (forall i, Next SPT (Next SPT src a) i = Next SPT src (a + i)) ->
  FillPixels PT W p (a + b) c m
  = bind (FillPixels PT W p a c)
      (fun _ => FillPixels PT W (Next PT p a) b c) m
  /\ CopyPixels PT SPT W p src (a + b) m
     = bind (CopyPixels PT SPT W p src a)
         (fun _ => CopyPixels PT SPT W (Next PT p a) (Next SPT src a) b) m.
Proof.
  intros Hp Hsrc. split.
  - unfold FillPixels, ForHorizontal, for_upto.
    rewrite for_range_split. apply bind_ext. intros _ m'.
    apply for_range_shift. intros i m'' Hi.
    simpl. rewrite Hp. reflexivity.
  - rewrite !CopyPixels_unfold.
    rewrite for_range_split. apply bind_ext. intros _ m'.
    apply for_range_shift. intros i m'' Hi.
    simpl. rewrite Hp, Hsrc. reflexivity.
Qed.

Lemma spans_compose_witness :
  FillPixels Greyscale.G (BitNotPixelOperations Greyscale.G)
    1%nat (2 + 1) (mkLuminosity8 15) (Greyscale.row [0; 1; 2; 3; 4])
  = bind (FillPixels Greyscale.G (BitNotPixelOperations Greyscale.G)
            1%nat 2 (mkLuminosity8 15))
      (fun _ => FillPixels Greyscale.G (BitNotPixelOperations Greyscale.G)
                  (Next Greyscale.G 1%nat 2) 1 (mkLuminosity8 15))
      (Greyscale.row [0; 1; 2; 3; 4]).
Proof.
  refine (proj1 (spans_compose Greyscale.G Greyscale.G
                   (BitNotPixelOperations Greyscale.G)
                   1%nat 0%nat 2 1 (mkLuminosity8 15)
                   (Greyscale.row [0; 1; 2; 3; 4]) _ _)).
  - intros i. simpl. lia.
  - intros i. simpl. lia.
Defined.

(** ** Copies within one buffer *)

Section InPlace.

Context {Mem C : Type}.
Variable PT : PixelTraits Mem C.
Variable p : pointer_type PT.
Variable n : nat.
Hypothesis contract : MemoryContract PT.
Hypothesis Hdistinct : span_distinct PT p n.

Lemma in_place_source_stable :
  forall i j v m, (j < i)%nat -> (i < n)%nat ->
    ReadPixel PT (Next PT p i) (WritePixel PT (Next PT p j) v m)
    = ReadPixel PT (Next PT p i) m.
Proof using contract Hdistinct.
  intros i j v m Hji Hi.
  apply (ReadPixel_other PT contract). apply Hdistinct; lia.
Qed.

Lemma in_place_copy_progress (g : C -> C -> option C)
    (W : WritePixelOperation C PT) m :
  pixelwise PT W g ->
  (forall i, (i < n)%nat -> valid_location PT (Next PT p i) m) ->
  span_progress PT g p n (fun i m' => ReadPixel PT (Next PT p i) m') m n
    (memory (CopyPixels PT PT W p p n m)).
Proof using contract Hdistinct.
  intros HW Hvalid. rewrite CopyPixels_unfold.
  apply (span_progress_loop PT g p n _
           (fun i m' => ReadPixel PT (Next PT p i) m') contract).
  - intros i m'. rewrite memory_bind, memory_lift.
    unfold PerPixelOperations_WritePixel. apply HW.
  - exact Hdistinct.
  - exact in_place_source_stable.
  - reflexivity.
  - apply span_progress_start. exact Hvalid.
Qed.

End InPlace.

(** X11: inverting a span in place twice restores it: over a descriptor
    that honours the memory and per-integer contracts, after [CopyPixels]
    with the bit-not operations from a span of pairwise different valid
    locations onto itself, done twice, each pixel of the span has the
    packed integer it had at the start, and after doing it once each has
    the all-ones integer minus that. *)
Theorem BitNot_in_place_twice {Mem C} (PT : PixelTraits Mem C)
    (packed : C -> Z) (p : pointer_type PT) (n : nat) (m : Mem) :
  MemoryContract PT ->
  IntegerContract PT packed ->
  0 <= integer_bits PT ->
  span_distinct PT p n ->
  (forall i, (i < n)%nat -> valid_location PT (Next PT p i) m) ->
  (forall i, (i < n)%nat ->
     0 <= packed (ReadPixel PT (Next PT p i) m) < 2 ^ integer_bits PT) ->
  forall i, (i < n)%nat ->
    packed (ReadPixel PT (Next PT p i)
              (memory (CopyPixels PT PT (BitNotPixelOperations PT) p p n m)))
    = 2 ^ integer_bits PT - 1 - packed (ReadPixel PT (Next PT p i) m)
    /\ packed (ReadPixel PT (Next PT p i)
                 (memory (CopyPixels PT PT (BitNotPixelOperations PT) p p n
                    (memory (CopyPixels PT PT (BitNotPixelOperations PT)
                               p p n m)))))
       = packed (ReadPixel PT (Next PT p i) m).
Proof.
  intros contract icontract Hw Hdistinct Hvalid Hrange i Hi.
  pose proof (UnaryWritePixel_pixelwise PT
                (PixelIntegerAdapter PT (PixelBitNot (integer_bits PT))))
    as HW.
  destruct (in_place_copy_progress PT p n contract Hdistinct _ _ m
              HW Hvalid)
    as (Hdone1 & _ & _ & Hvalid1 & _).
  fold (BitNotPixelOperations PT) in Hdone1, Hvalid1.
  destruct (in_place_copy_progress PT p n contract Hdistinct _ _
              (memory (CopyPixels PT PT (BitNotPixelOperations PT) p p n m))
              HW Hvalid1)
    as (Hdone2 & _).
  fold (BitNotPixelOperations PT) in Hdone2.
  rewrite (Hdone2 i Hi Hi), (Hdone1 i Hi Hi).
  unfold committed, PixelIntegerAdapter.
  rewrite !(TransformInteger_spec PT packed icontract).
  set (w := integer_bits PT) in *.
  set (x := packed (ReadPixel PT (Next PT p i) m)).
  assert (Hx : 0 <= x < 2 ^ w) by (apply Hrange; exact Hi).
  assert (Hnot : to_integer w (PixelBitNot w x) = 2 ^ w - 1 - x).
  { unfold PixelBitNot. rewrite (to_integer_lnot w x) by assumption.
    apply to_integer_small. lia. }
  split; [exact Hnot|].
  rewrite Hnot. unfold PixelBitNot.
  rewrite (to_integer_lnot w) by lia.
  rewrite to_integer_small by lia. lia.
Qed.

Lemma BitNot_in_place_twice_witness :
  GetLuminosity
    (ReadPixel Greyscale.G 2%nat
       (memory (CopyPixels Greyscale.G Greyscale.G
                  (BitNotPixelOperations Greyscale.G) 1%nat 1%nat 2
                  (Greyscale.row [1; 2; 3; 4]))))
  = 2 ^ 8 - 1 - 3
  /\ GetLuminosity
       (ReadPixel Greyscale.G 2%nat
          (memory (CopyPixels Greyscale.G Greyscale.G
                     (BitNotPixelOperations Greyscale.G) 1%nat 1%nat 2
                     (memory (CopyPixels Greyscale.G Greyscale.G
                                (BitNotPixelOperations Greyscale.G)
                                1%nat 1%nat 2
                                (Greyscale.row [1; 2; 3; 4]))))))
     = 3.
Proof.
  refine (BitNot_in_place_twice Greyscale.G GetLuminosity 1%nat 2
            (Greyscale.row [1; 2; 3; 4])
            GreyscaleSpanFacts.Greyscale_memory Greyscale_integer
            ltac:(simpl; lia)
            (GreyscaleSpanFacts.Greyscale_span_distinct 1 2)
            (fun i Hi =>
               GreyscaleFacts.Greyscale_valid_location (1 + i)
                 (Greyscale.row [1; 2; 3; 4]) ltac:(simpl; lia))
            _ 1%nat ltac:(lia)).
  intros i Hi.
  destruct i as [|[|i]]; [simpl; lia | simpl; lia | lia].
Defined.

(** ** A copy onto the next pixel *)

Module GreyscaleOverlap.

Import Greyscale.

Lemma shifted_copy_loop (f : Luminosity8 -> Luminosity8) (src : nat) :
  forall count start pre y rest,
    length pre = (src + start)%nat ->
    (count <= length rest)%nat ->
    memory (for_range start count
              (fun i =>
                 bind (read_source G G (Next G src i))
                   (fun c => lift Dest
                      (PerPixelOperations_WritePixel G
                         (UnaryWritePixel G f)
                         (Next G (Datatypes.S src) i) c)))
              (pre ++ y :: rest))
    = pre ++ y :: map (fun i => Nat.iter (Datatypes.S i) f y) (seq 0 count)
          ++ drop count rest.
Proof.
  induction count as [|count IH]; intros start pre y rest Hpre Hcount.
  - simpl. rewrite drop_0. reflexivity.
  - destruct rest as [|r rest]; [simpl in Hcount; lia|].
    simpl in Hcount.
    rewrite memory_for_range_S, memory_bind, memory_lift.
    assert (Hread :
      result (read_source G G (Next G src start) (pre ++ y :: r :: rest))
      = y).
    { unfold read_source, result. simpl. rewrite <- Hpre.
      rewrite lookup_app_r by lia. rewrite Nat.sub_diag. reflexivity. }
    rewrite Hread.
    assert (Hstep :
      memory (PerPixelOperations_WritePixel G (UnaryWritePixel G f)
                (Next G (Datatypes.S src) start) y
                (memory (read_source G G (Next G src start)
                           (pre ++ y :: r :: rest))))
      = (pre ++ [y]) ++ f y :: rest).
    { unfold PerPixelOperations_WritePixel, memory. simpl.
      replace (Datatypes.S (src + start)) with (length (pre ++ [y]) + 0)%nat
        by (rewrite length_app; simpl; lia).
      replace (pre ++ y :: r :: rest) with ((pre ++ [y]) ++ r :: rest)
        by (rewrite <- app_assoc; reflexivity).
      rewrite insert_app_r. reflexivity. }
    rewrite Hstep.
    rewrite (IH (Datatypes.S start) (pre ++ [y]) (f y) rest)
      by (try (rewrite length_app; simpl); lia).
    rewrite <- app_assoc. simpl. f_equal. f_equal. f_equal.
    rewrite <- (fmap_S_seq 0 count).
    rewrite <- list_fmap_compose.
    f_equal.
    apply list_fmap_ext. intros _ i _. simpl.
    rewrite <- Nat.iter_succ_r. reflexivity.
Qed.

End GreyscaleOverlap.

(** X12: in an 8-bit greyscale buffer, [CopyPixels] with a direct-write
    operation [f] onto a destination that starts one pixel after its
    source does not copy the source span: going from left to right it
    reads what it has just written, so destination position [i] ends up
    holding [f] applied [i + 1] times to the first source pixel (the first
    source pixel itself, at every position, when [f] changes nothing), and
    the pixels before the source and after the destination span are
    untouched. *)
Theorem CopyPixels_onto_next_pixel (f : Luminosity8 -> Luminosity8)
    (pre rest : list Luminosity8) (x : Luminosity8) (n : nat) :
  (n <= length rest)%nat ->
  memory (CopyPixels Greyscale.G Greyscale.G
            (UnaryWritePixel Greyscale.G f)
            (Datatypes.S (length pre)) (length pre) n
            (pre ++ x :: rest))
  = pre ++ x :: map (fun i => Nat.iter (Datatypes.S i) f x) (seq 0 n)
        ++ drop n rest.
Proof.
  intros Hn. rewrite CopyPixels_unfold.
  apply (GreyscaleOverlap.shifted_copy_loop f (length pre) n 0 pre x rest);
    [lia | exact Hn].
Qed.

Lemma CopyPixels_onto_next_pixel_witness :
  memory (CopyPixels Greyscale.G Greyscale.G
            (UnaryWritePixel Greyscale.G (fun c => c))
            2%nat 1%nat 3
            (Greyscale.row [9; 1; 2; 3; 4; 5]))
  = Greyscale.row [9; 1; 1; 1; 1; 5].
Proof.
  exact (CopyPixels_onto_next_pixel (fun c => c)
           (Greyscale.row [9]) (Greyscale.row [2; 3; 4; 5])
           (mkLuminosity8 1) 3 ltac:(simpl; lia)).
Defined.

(** ** Decimal output of the radio driver *)

Module FormatFacts.

Import XCOM760.

Lemma append_inj_length (a b c d : string) :
  String.length a = String.length c ->
  String.append a b = String.append c d -> a = c /\ b = d.
Proof.
  revert c. induction a as [|x a IH]; intros [|y c] Hlen Heq;
    try discriminate.
  - split; [reflexivity | exact Heq].
  - simpl in Hlen, Heq. injection Hlen as Hlen. injection Heq as Hxy Heq.
    destruct (IH c Hlen Heq) as [-> ->]. subst y. split; reflexivity.
Qed.

Lemma append_cancel_r (a c t : string) :
  String.append a t = String.append c t -> a = c.
Proof.
  intros Heq. apply (append_inj_length a t c t); [|exact Heq].
  apply (f_equal String.length) in Heq.
  rewrite !XCOM760Facts.length_append in Heq. lia.
Qed.

Lemma length_string_of_uint (d : Decimal.uint) :
  String.length (NilEmpty.string_of_uint d) = Decimal.nb_digits d.
Proof. induction d; simpl; congruence. Qed.

Lemma usize_nb_digits (d : Decimal.uint) :
  DecimalPos.Unsigned.usize d = N.of_nat (Decimal.nb_digits d).
Proof.
  induction d; simpl DecimalPos.Unsigned.usize; simpl Decimal.nb_digits;
    rewrite ?IHd, ?Nat2N.inj_succ; reflexivity.
Qed.

Lemma of_uint_acc_lower (l : Decimal.uint) (acc : positive) :
  (10 ^ N.of_nat (Decimal.nb_digits l) <= N.pos (Pos.of_uint_acc l acc))%N.
Proof.
  rewrite DecimalPos.Unsigned.of_uint_acc_rev, usize_nb_digits.
  assert (H : (0 < 10 ^ N.of_nat (Decimal.nb_digits l))%N).
  { apply N.neq_0_lt_0, N.pow_nonzero. discriminate. }
  nia.
Qed.

Lemma unorm_shape (d : Decimal.uint) :
  Decimal.unorm d = Decimal.zero
  \/ exists k,
       Decimal.nb_digits (Decimal.unorm d) = Datatypes.S k
       /\ (10 ^ N.of_nat k <= N.of_uint (Decimal.unorm d))%N.
Proof.
  induction d as [|d IH|d _|d _|d _|d _|d _|d _|d _|d _|d _];
    [left; reflexivity
    | rewrite DecimalFacts.unorm_D0; exact IH
    | right; exists (Decimal.nb_digits d); split;
      [reflexivity | apply of_uint_acc_lower] ..].
Qed.

Lemma to_uint_normal (n : N) : Decimal.unorm (N.to_uint n) = N.to_uint n.
Proof.
  rewrite <- (DecimalN.Unsigned.to_of (N.to_uint n)).
  rewrite DecimalN.Unsigned.of_to. reflexivity.
Qed.

Lemma to_uint_nonnil (n : N) : N.to_uint n <> Decimal.Nil.
Proof.
  destruct n as [|p]; [discriminate|].
  apply DecimalPos.Unsigned.to_uint_nonnil.
Qed.

Lemma format_u_plain (n : N) :
  format_u n = NilEmpty.string_of_uint (N.to_uint n).
Proof.
  unfold format_u, NilZero.string_of_uint.
  pose proof (to_uint_nonnil n) as Hn.
  destruct (N.to_uint n); [contradiction | reflexivity ..].
Qed.

(** The number of characters [%u] prints. *)
Lemma format_u_length (n : N) (k : nat) :
  (1 <= k)%nat -> (n < 10 ^ N.of_nat k)%N ->
  (1 <= String.length (format_u n) <= k)%nat.
Proof.
  intros Hk Hn. rewrite format_u_plain, length_string_of_uint.
  destruct (unorm_shape (N.to_uint n)) as [Hz | (j & Hj & Hlow)];
    rewrite to_uint_normal in *.
  - rewrite Hz. simpl. lia.
  - rewrite DecimalN.Unsigned.of_to in Hlow. rewrite Hj.
    split; [lia|].
    assert (Hlt : (10 ^ N.of_nat j < 10 ^ N.of_nat k)%N) by lia.
    apply N.pow_lt_mono_r_iff in Hlt; lia.
Qed.

Lemma format_u_inj (n1 n2 : N) : format_u n1 = format_u n2 -> n1 = n2.
Proof.
  rewrite !format_u_plain. intros Heq.
  apply (f_equal NilEmpty.uint_of_string) in Heq.
  rewrite !NilEmpty.usu in Heq. injection Heq as Heq.
  apply DecimalN.Unsigned.to_uint_inj. exact Heq.
Qed.

Lemma length_zeros (k : nat) : String.length (zeros k) = k.
Proof. induction k as [|k IH]; simpl; [|rewrite IH]; reflexivity. Qed.

(** [%03u] prints exactly three characters for a number below 1000. *)
Lemma format_03u_length (n : N) :
  (n < 1000)%N -> String.length (format_03u n) = 3%nat.
Proof.
  intros Hn. unfold format_03u.
  pose proof (format_u_length n 3 ltac:(lia) ltac:(simpl; lia)) as Hlen.
  rewrite XCOM760Facts.length_append, length_zeros. lia.
Qed.

Lemma uint_of_zeros (k : nat) (d : Decimal.uint) :
  NilEmpty.uint_of_string
    (String.append (zeros k) (NilEmpty.string_of_uint d))
  = Some (Nat.iter k Decimal.D0 d).
Proof.
  induction k as [|k IH].
  - simpl. apply NilEmpty.usu.
  - cbn [zeros String.append NilEmpty.uint_of_string]. rewrite IH.
    reflexivity.
Qed.

Lemma of_uint_zeros (k : nat) (d : Decimal.uint) :
  N.of_uint (Nat.iter k Decimal.D0 d) = N.of_uint d.
Proof. induction k as [|k IH]; [reflexivity | exact IH]. Qed.

Lemma format_03u_inj (n1 n2 : N) :
  format_03u n1 = format_03u n2 -> n1 = n2.
Proof.
  unfold format_03u. rewrite !format_u_plain. intros Heq.
  apply (f_equal NilEmpty.uint_of_string) in Heq.
  rewrite !uint_of_zeros in Heq. injection Heq as Heq.
  apply (f_equal N.of_uint) in Heq.
  rewrite !of_uint_zeros, !DecimalN.Unsigned.of_to in Heq. exact Heq.
Qed.

Lemma format_d_inj (z1 z2 : Z) : format_d z1 = format_d z2 -> z1 = z2.
Proof.
  unfold format_d. intros Heq.
  apply (f_equal NilZero.int_of_string) in Heq.
  assert (Hnn : forall z, Z.to_int z <> Decimal.Pos Decimal.Nil
                          /\ Z.to_int z <> Decimal.Neg Decimal.Nil).
  { intros [|p|p]; simpl; split; try discriminate;
      intros H; injection H as H;
      exact (DecimalPos.Unsigned.to_uint_nonnil p H). }
  rewrite !NilZero.isi in Heq by apply Hnn.
  injection Heq as Heq. apply DecimalZ.to_int_inj. exact Heq.
Qed.

(** The number of characters [%d] prints for an [int]. *)
Lemma format_d_length (z : Z) :
  - 2 ^ 31 <= z < 2 ^ 31 ->
  (1 <= String.length (format_d z) <= 11)%nat.
Proof.
  intros Hz. unfold format_d.
  destruct z as [|p|p]; simpl.
  - lia.
  - change (NilZero.string_of_uint (Pos.to_uint p))
      with (format_u (N.pos p)).
    pose proof (format_u_length (N.pos p) 10 ltac:(lia)
                  ltac:(simpl; lia)) as H.
    lia.
  - change (NilZero.string_of_uint (Pos.to_uint p))
      with (format_u (N.pos p)).
    pose proof (format_u_length (N.pos p) 10 ltac:(lia)
                  ltac:(simpl; lia)) as H.
    lia.
Qed.

End FormatFacts.

(** ** Commands of the radio driver *)

(** X13: for every volume that is an [int], [PutVolume] returns true and
    appends to the port the text [$RVOL=], the volume in decimal and a line
    end: between 9 and 19 characters, which with the terminating zero fit
    the 32 characters of the local buffer; and two volumes that differ
    give two commands that differ. *)
Theorem PutVolume_command (Volume Volume' : Z) (port : XCOM760.Port) :
  - 2 ^ 31 <= Volume < 2 ^ 31 ->
  fst (XCOM760.PutVolume Volume port) = true
  /\ snd (XCOM760.PutVolume Volume port)
     = String.append port
         (String.append "$RVOL="
            (String.append (XCOM760.format_d Volume) XCOM760.CRLF))
  /\ (String.length port + 9
      <= String.length (snd (XCOM760.PutVolume Volume port))
      <= String.length port + 19)%nat
  /\ (XCOM760.PutVolume Volume port = XCOM760.PutVolume Volume' port ->
      Volume = Volume').
Proof.
  intros Hint.
  split; [reflexivity|]. split; [reflexivity|]. split.
  - unfold XCOM760.PutVolume, XCOM760.Port_Write. cbn [snd].
    rewrite XCOM760Facts.length_append.
    cbn [String.append String.length].
    rewrite XCOM760Facts.length_append.
    pose proof (FormatFacts.format_d_length Volume Hint) as Hd.
    change (String.length XCOM760.CRLF) with 2%nat. lia.
  - intros Heq. apply (f_equal snd) in Heq.
    unfold XCOM760.PutVolume, XCOM760.Port_Write in Heq. cbn [snd] in Heq.
    apply (FormatFacts.append_inj_length port _ port _ eq_refl) in Heq
      as [_ Heq].
    cbn [String.append] in Heq. injection Heq as Heq.
    apply FormatFacts.append_cancel_r in Heq.
    apply FormatFacts.format_d_inj. exact Heq.
Qed.

Lemma PutVolume_command_witness :
  snd (XCOM760.PutVolume (-12) EmptyString)
  = String.append "$RVOL=-12" XCOM760.CRLF
  /\ (String.length EmptyString + 9
      <= String.length (snd (XCOM760.PutVolume (-12) EmptyString))
      <= String.length EmptyString + 19)%nat.
Proof.
  destruct (PutVolume_command (-12) 0 EmptyString ltac:(lia))
    as (_ & Hcmd & Hlen & _).
  split; [exact Hcmd | exact Hlen].
Defined.

(** X14: for every frequency whose kilohertz is an [unsigned],
    [PutActiveFrequency] appends between 13 and 19 characters to the port,
    which with the terminating zero fit the 32 characters of the local
    buffer, the kilohertz part being printed on exactly three digits; and
    two frequencies that differ give two commands that differ. *)
Theorem PutActiveFrequency_command
    (frequency frequency' : XCOM760.RadioFrequency) (port : XCOM760.Port) :
  (XCOM760.GetKiloHertz frequency < 2 ^ 32)%N ->
  (String.length port + 13
   <= String.length (snd (XCOM760.PutActiveFrequency frequency port))
   <= String.length port + 19)%nat
  /\ String.length
       (XCOM760.format_03u (XCOM760.GetKiloHertz frequency mod 1000))
     = 3%nat
  /\ (XCOM760.PutActiveFrequency frequency port
      = XCOM760.PutActiveFrequency frequency' port ->
      frequency = frequency').
Proof.
  intros Hkhz.
  assert (Hmod : forall f,
            String.length
              (XCOM760.format_03u (XCOM760.GetKiloHertz f mod 1000))
            = 3%nat).
  { intros f. apply FormatFacts.format_03u_length.
    apply N.mod_upper_bound. discriminate. }
  split; [|split; [apply Hmod|]].
  - unfold XCOM760.PutActiveFrequency, XCOM760.Port_Write. cbn [snd].
    rewrite XCOM760Facts.length_append.
    cbn [String.append String.length].
    rewrite XCOM760Facts.length_append.
    cbn [String.append String.length].
    rewrite XCOM760Facts.length_append, Hmod.
    change (String.length XCOM760.CRLF) with 2%nat.
    assert (Hdiv : (XCOM760.GetKiloHertz frequency / 1000
                    < 10 ^ N.of_nat 7)%N).
    { apply N.Div0.div_lt_upper_bound. simpl. lia. }
    pose proof (FormatFacts.format_u_length _ 7 ltac:(lia) Hdiv) as Hu.
    lia.
  - intros Heq. apply (f_equal snd) in Heq.
    unfold XCOM760.PutActiveFrequency, XCOM760.Port_Write in Heq.
    cbn [snd] in Heq.
    apply (FormatFacts.append_inj_length port _ port _ eq_refl) in Heq
      as [_ Heq].
    cbn [String.append] in Heq. injection Heq as Heq.
    assert (Hlen := f_equal String.length Heq).
    rewrite !XCOM760Facts.length_append in Hlen.
    cbn [String.append String.length] in Hlen.
    rewrite !XCOM760Facts.length_append, !Hmod in Hlen.
    apply FormatFacts.append_inj_length in Heq as [Hu Heq]; [|lia].
    cbn [String.append] in Heq. injection Heq as Heq.
    apply FormatFacts.append_cancel_r in Heq.
    apply FormatFacts.format_u_inj in Hu.
    apply FormatFacts.format_03u_inj in Heq.
    destruct frequency as [k], frequency' as [k']. simpl in *.
    f_equal.
    rewrite (N.div_mod k 1000), (N.div_mod k' 1000) by discriminate.
    rewrite Hu, Heq. reflexivity.
Qed.

Lemma PutActiveFrequency_command_witness :
  (String.length EmptyString + 13
   <= String.length
        (snd (XCOM760.PutActiveFrequency
                (XCOM760.mkRadioFrequency 4294967295) EmptyString))
   <= String.length EmptyString + 19)%nat
  /\ String.length (XCOM760.format_03u (4294967295 mod 1000)) = 3%nat.
Proof.
  destruct (PutActiveFrequency_command
              (XCOM760.mkRadioFrequency 4294967295)
              (XCOM760.mkRadioFrequency 0) EmptyString
              ltac:(simpl; lia))
    as (Hlen & Hthree & _).
  split; [exact Hlen | exact Hthree].
Defined.

(** ** Fills that can be repeated *)

Lemma fill_progress {Mem C S} (PT : PixelTraits Mem C)
    (W : WritePixelOperation S PT) (g : C -> S -> option C)
    (p : pointer_type PT) (n : nat) (c : S) (m : Mem) :
  MemoryContract PT ->
  pixelwise PT W g ->
  span_distinct PT p n ->
  (forall i, (i < n)%nat -> valid_location PT (Next PT p i) m) ->
  span_progress PT g p n (fun _ _ => c) m n
    (memory (FillPixels PT W p n c m)).
Proof.
  intros contract HW Hdistinct Hvalid.
  unfold FillPixels, ForHorizontal, for_upto, PerPixelOperations_WritePixel.
  apply (span_progress_loop PT g p n
           (fun i => W (Next PT p i) c) (fun _ _ => c) contract).
  - intros i m'. apply HW.
  - exact Hdistinct.
  - reflexivity.
  - reflexivity.
  - apply span_progress_start. exact Hvalid.
Qed.

Lemma fill_twice_pixel {Mem C S} (PT : PixelTraits Mem C)
    (op : C -> S -> C) (p : pointer_type PT) (n : nat) (c : S) (m : Mem) :
  MemoryContract PT ->
  span_distinct PT p n ->
  (forall i, (i < n)%nat -> valid_location PT (Next PT p i) m) ->
  forall i, (i < n)%nat ->
    ReadPixel PT (Next PT p i)
      (memory (FillPixels PT (BinaryWritePixel PT op) p n c m))
    = op (ReadPixel PT (Next PT p i) m) c
    /\ ReadPixel PT (Next PT p i)
         (memory (FillPixels PT (BinaryWritePixel PT op) p n c
                    (memory (FillPixels PT (BinaryWritePixel PT op)
                               p n c m))))
       = op (op (ReadPixel PT (Next PT p i) m) c) c.
Proof.
  intros contract Hdistinct Hvalid i Hi.
  pose proof (BinaryWritePixel_pixelwise PT op) as HW.
  destruct (fill_progress PT _ _ p n c m contract HW Hdistinct Hvalid)
    as (Hdone1 & _ & _ & Hvalid1 & _).
  destruct (fill_progress PT _ _ p n c _ contract HW Hdistinct Hvalid1)
    as (Hdone2 & _).
  rewrite (Hdone2 i Hi Hi), (Hdone1 i Hi Hi).
  split; reflexivity.
Qed.

(** X15: although a blend-write fill reads the destination, filling with
    bit-or, bit-and or bit-not-or can be repeated: over a descriptor that
    honours the memory and per-integer contracts, on a span of pairwise
    different valid locations, each pixel has after two such fills with
    the same colour the packed integer it has after one. *)
Theorem bitwise_fills_idempotent {Mem C} (PT : PixelTraits Mem C)
    (packed : C -> Z) (p : pointer_type PT) (n : nat) (c : C) (m : Mem) :
  MemoryContract PT ->
  IntegerContract PT packed ->
  0 <= integer_bits PT ->
  span_distinct PT p n ->
  (forall i, (i < n)%nat -> valid_location PT (Next PT p i) m) ->
  forall i, (i < n)%nat ->
    packed (ReadPixel PT (Next PT p i)
              (memory (FillPixels PT (BitOrPixelOperations PT) p n c
                 (memory (FillPixels PT (BitOrPixelOperations PT)
                            p n c m)))))
    = packed (ReadPixel PT (Next PT p i)
                (memory (FillPixels PT (BitOrPixelOperations PT) p n c m)))
    /\ packed (ReadPixel PT (Next PT p i)
                 (memory (FillPixels PT (BitAndPixelOperations PT) p n c
                    (memory (FillPixels PT (BitAndPixelOperations PT)
                               p n c m)))))
       = packed (ReadPixel PT (Next PT p i)
                   (memory (FillPixels PT (BitAndPixelOperations PT)
                              p n c m)))
    /\ packed (ReadPixel PT (Next PT p i)
                 (memory (FillPixels PT (BitNotOrPixelOperations PT) p n c
                    (memory (FillPixels PT (BitNotOrPixelOperations PT)
                               p n c m)))))
       = packed (ReadPixel PT (Next PT p i)
                   (memory (FillPixels PT (BitNotOrPixelOperations PT)
                              p n c m))).
Proof.
  intros contract icontract Hw Hdistinct Hvalid i Hi.
  unfold BitOrPixelOperations, BitAndPixelOperations,
    BitNotOrPixelOperations.
  pose proof (fun op =>
                fill_twice_pixel PT (PixelIntegerAdapter2 PT op) p n c m
                  contract Hdistinct Hvalid i Hi) as Htwice.
  split; [|split].
  - destruct (Htwice (bit_or (integer_bits PT))) as [H1 H2].
    rewrite H1, H2. unfold PixelIntegerAdapter2.
    rewrite !(TransformInteger2_spec PT packed icontract).
    set (w := integer_bits PT) in *. packed_bits w.
  - destruct (Htwice (bit_and (integer_bits PT))) as [H1 H2].
    rewrite H1, H2. unfold PixelIntegerAdapter2.
    rewrite !(TransformInteger2_spec PT packed icontract).
    set (w := integer_bits PT) in *. packed_bits w.
  - destruct (Htwice (PixelBitNotOr (integer_bits PT))) as [H1 H2].
    rewrite H1, H2. unfold PixelIntegerAdapter2.
    rewrite !(TransformInteger2_spec PT packed icontract).
    set (w := integer_bits PT) in *. packed_bits w.
Qed.

Lemma bitwise_fills_idempotent_witness :
  GetLuminosity
    (ReadPixel Greyscale.G 1%nat
       (memory (FillPixels Greyscale.G (BitOrPixelOperations Greyscale.G)
                  0%nat 2 (mkLuminosity8 3)
                  (memory (FillPixels Greyscale.G
                             (BitOrPixelOperations Greyscale.G)
                             0%nat 2 (mkLuminosity8 3)
                             (Greyscale.row [8; 16; 32])))))) 
  = GetLuminosity
      (ReadPixel Greyscale.G 1%nat
         (memory (FillPixels Greyscale.G (BitOrPixelOperations Greyscale.G)
                    0%nat 2 (mkLuminosity8 3)
                    (Greyscale.row [8; 16; 32])))).
Proof.
  exact (proj1 (bitwise_fills_idempotent Greyscale.G GetLuminosity
                  0%nat 2 (mkLuminosity8 3) (Greyscale.row [8; 16; 32])
                  GreyscaleSpanFacts.Greyscale_memory Greyscale_integer
                  ltac:(simpl; lia)
                  (GreyscaleSpanFacts.Greyscale_span_distinct 0 2)
                  (fun i Hi =>
                     GreyscaleFacts.Greyscale_valid_location (0 + i)
                       (Greyscale.row [8; 16; 32]) ltac:(simpl; lia))
                  1%nat ltac:(lia))).
Defined.

(** ** The key colour *)

Lemma for_range_reads_only {Mem E} (body : nat -> Eff Mem E unit)
    (ev : nat -> E) (m : Mem) count :
  forall start,
    (forall i, (start <= i < start + count)%nat ->
       body i m = (tt, m, [ev i])) ->
    for_range start count body m = (tt, m, map ev (seq start count)).
Proof.
  induction count as [|count IH]; intros start Hbody; [reflexivity|].
  cbn [for_range]. unfold bind. rewrite Hbody by lia.
  rewrite IH by (intros i Hi; apply Hbody; lia). reflexivity.
Qed.

(** X16: the key colour is never drawn: [FillPixels] with the key colour
    through colour keying or through transparent invert makes no access
    and leaves the memory as it was, and [CopyPixels] through either of a
    source span that holds the key colour at each of its [n] positions
    reads those [n] pixels, writes nothing and leaves the memory as it
    was. *)
Theorem key_colour_not_drawn {Mem C} (PT SPT : PixelTraits Mem C)
    (k : C) (p : pointer_type PT) (src : pointer_type SPT) (n : nat)
    (m : Mem) :
  (forall i, (i < n)%nat -> ReadPixel SPT (Next SPT src i) m = k) ->
  FillPixels PT (TransparentPixelOperations PT (mkColorKey k)) p n k m
  = (tt, m, [])
  /\ FillPixels PT (TransparentInvertPixelOperations PT k) p n k m
     = (tt, m, [])
  /\ CopyPixels PT SPT (TransparentPixelOperations PT (mkColorKey k))
       p src n m
     = (tt, m, map (fun i => SrcRead (Next SPT src i) k) (seq 0 n))
  /\ CopyPixels PT SPT (TransparentInvertPixelOperations PT k) p src n m
     = (tt, m, map (fun i => SrcRead (Next SPT src i) k) (seq 0 n)).
Proof.
  intros Hsrc.
  assert (Hkk : color_ne PT k k = false)
    by (apply color_ne_false; reflexivity).
  split; [|split; [|split]].
  - unfold FillPixels, ForHorizontal, for_upto.
    apply for_range_skip. intros i m'.
    apply TransparentPixelOperations_skipped.
  - unfold FillPixels, ForHorizontal, for_upto.
    apply for_range_skip. intros i m'.
    unfold PerPixelOperations_WritePixel, TransparentInvertPixelOperations.
    rewrite Hkk. reflexivity.
  - rewrite CopyPixels_unfold. apply for_range_reads_only.
    intros i Hi. unfold bind, read_source, lift.
    rewrite Hsrc by lia.
    unfold PerPixelOperations_WritePixel.
    rewrite TransparentPixelOperations_skipped. reflexivity.
  - rewrite CopyPixels_unfold. apply for_range_reads_only.
    intros i Hi. unfold bind, read_source, lift.
    rewrite Hsrc by lia.
    unfold PerPixelOperations_WritePixel, TransparentInvertPixelOperations.
    rewrite Hkk. reflexivity.
Qed.

Lemma key_colour_not_drawn_witness :
  CopyPixels Greyscale.G Greyscale.G
    (TransparentPixelOperations Greyscale.G (mkColorKey (mkLuminosity8 7)))
    0%nat 2%nat 2 (Greyscale.row [1; 2; 7; 7])
  = (tt, Greyscale.row [1; 2; 7; 7],
     [SrcRead (PT := Greyscale.G) (SPT := Greyscale.G) 2%nat
        (mkLuminosity8 7);
      SrcRead (PT := Greyscale.G) (SPT := Greyscale.G) 3%nat
        (mkLuminosity8 7)]).
Proof.
  refine (proj1 (proj2 (proj2
            (key_colour_not_drawn Greyscale.G Greyscale.G
               (mkLuminosity8 7) 0%nat 2%nat 2
               (Greyscale.row [1; 2; 7; 7]) _)))).
  intros i Hi. destruct i as [|[|i]]; [reflexivity | reflexivity | lia].
Defined.

(** ** Blend-write fills, access by access *)

(** X17: [FillPixels] with the blend-write strategy reads and then writes
    each of the [n] positions of the span once, in increasing order of the
    positions, and what it writes at a position is the operation applied
    to the pixel it has just read there and to the fill colour. *)
Theorem FillPixels_binary_accesses {Mem C S} (PT : PixelTraits Mem C)
    (op : C -> S -> C) (p : pointer_type PT) (n : nat) (c : S) (m : Mem) :
  exists ds : list C,
    length ds = n
    /\ trace (FillPixels PT (BinaryWritePixel PT op) p n c m)
       = concat (imap (fun i d =>
                         [AccRead (Next PT p i) d;
                          AccWrite (Next PT p i) (op d c)])
                   ds).
Proof.
  unfold FillPixels, ForHorizontal, for_upto.
  apply (for_range_blocks
           (fun i d => [AccRead (Next PT p i) d;
                        AccWrite (Next PT p i) (op d c)])).
  intros i m'. exists (ReadPixel PT (Next PT p i) m'). reflexivity.
Qed.

(** ** End points of the opaque alpha blend *)

(** X18: over a descriptor that honours the per-channel contract, every
    channel of the colour opaque alpha computes lies between the
    corresponding channels of its two colours; with coverage 0 the colour
    has the channels of the first colour. *)
Theorem PixelOpaqueAlpha_between {Mem C} (PT : PixelTraits Mem C)
    (channels : C -> list Z) (colorA colorB : C) (s : Luminosity8) :
  ChannelContract PT channels ->
  in_uint8 (GetLuminosity s) ->
  Forall in_uint8 (channels colorA) ->
  Forall in_uint8 (channels colorB) ->
  length (channels colorA) = length (channels colorB) ->
  (forall i x a b,
     channels (PixelOpaqueAlpha_call PT
                 (mkPixelOpaqueAlpha colorA colorB) s) !! i = Some x ->
     channels colorA !! i = Some a ->
     channels colorB !! i = Some b ->
     Z.min a b <= x <= Z.max a b)
  /\ (GetLuminosity s = 0 ->
      channels (PixelOpaqueAlpha_call PT
                  (mkPixelOpaqueAlpha colorA colorB) s)
      = channels colorA)
  /\ length (channels (PixelOpaqueAlpha_call PT
                         (mkPixelOpaqueAlpha colorA colorB) s))
     = length (channels colorA).
Proof.
  intros contract Hs HA HB Hlen.
  assert (Hch :
    channels (PixelOpaqueAlpha_call PT (mkPixelOpaqueAlpha colorA colorB) s)
    = zip_with (fun a b => a + Z.shiftr ((b - a) * GetLuminosity s) 8)
        (channels colorA) (channels colorB)).
  { unfold PixelOpaqueAlpha_call. simpl.
    apply (blend_channels PT channels contract _ (GetLuminosity s));
      try assumption.
    intros x y Hx Hy. apply colored_alpha_channel; assumption. }
  rewrite Hch. split; [|split].
  - intros i x a b Hx Ha Hb.
    exact (blend_between (GetLuminosity s) _ _ Hs HA HB i x a b Hx Ha Hb).
  - intros H0. rewrite H0. apply blend_zero_coverage. exact Hlen.
  - rewrite length_zip_with. lia.
Qed.

Lemma PixelOpaqueAlpha_between_witness :
  Greyscale.channels
    (PixelOpaqueAlpha_call Greyscale.G
       (mkPixelOpaqueAlpha (mkLuminosity8 20) (mkLuminosity8 220))
       (mkLuminosity8 0))
  = Greyscale.channels (mkLuminosity8 20).
Proof.
  refine (proj1 (proj2
            (PixelOpaqueAlpha_between Greyscale.G Greyscale.channels
               (mkLuminosity8 20) (mkLuminosity8 220) (mkLuminosity8 0)
               GreyscaleFacts.Greyscale_channels
               ltac:(unfold in_uint8; simpl; lia)
               (Forall_in_uint8_one 20 ltac:(unfold in_uint8; lia))
               (Forall_in_uint8_one 220 ltac:(unfold in_uint8; lia))
               eq_refl)) eq_refl).
Defined.
